(** * pythonutilslib: the [Utils] functions of [utils.py], embedded and verified

    Python integers are unbounded, so they are [Z].  A Python [str] is a
    sequence of Unicode code points, so it is a list of code points.  A raised
    exception is a value of [result].  What the interpreter and its library
    decide rather than [utils.py] (the iteration order of a [set], the digest
    functions behind [hashlib], the random source, the Unicode case tables
    outside ASCII, the operating system behind [os.path.exists] and
    [os.mkdir]) is a parameter of the function that depends on it. *)

From Stdlib Require Import ZArith NArith Lia List Permutation Sorted Ascii.
From stdpp Require Import base option list sorting strings gmap.
From Equations Require Import Equations.
Import ListNotations.

(** ** The Python values and built-ins the functions rely on *)

Module Py.

(** The exceptions that the modelled code can raise. *)
Inductive exn : Set :=
| ValueError
| IndexError
| RecursionError
| UnicodeEncodeError
| TypeError
| FileExistsError
| FileNotFoundError
| NotADirectoryError
| PermissionError
| OSError (errno : Z).

Inductive result (A : Type) : Type :=
| Ok (a : A)
| Raise (e : exn).
Arguments Ok {A} a.
Arguments Raise {A} e.

Definition bind {A B} (r : result A) (k : A -> result B) : result B :=
  match r with
  | Ok a => k a
  | Raise e => Raise e
  end.

Definition returns {A} (r : result A) : Prop := exists a, r = Ok a.

(** *** Text *)

(** A code point; a [str] holds code points below [0x110000]. *)
Abbreviation char := N (only parsing).
Abbreviation str := (list N) (only parsing).

(** The [str] written as a literal of 8-bit characters. *)
Definition lit (s : string) : str :=
  map N_of_ascii (String.list_ascii_of_string s).

(** [text[::-1]]: with a step of -1 and no bounds a slice takes the indices
    [len - 1], [len - 2], ..., [0]. *)
Fixpoint range_down (n : nat) : list nat :=
  match n with
  | O => []
  | S n' => n' :: range_down n'
  end.

Definition slice_backwards {A} (text : list A) : list A :=
  omap (fun i => text !! i) (range_down (length text)).

(** [text.index(c)]: where [c] first occurs, a [ValueError] if nowhere. *)
Fixpoint index (text : str) (c : char) : result nat :=
  match text with
  | [] => Raise ValueError
  | x :: rest =>
      if decide (x = c) then Ok O
      else bind (index rest c) (fun i => Ok (S i))
  end.

(** [sep.join(parts)] *)
Fixpoint join (sep : str) (parts : list str) : str :=
  match parts with
  | [] => []
  | [p] => p
  | p :: rest => p ++ sep ++ join sep rest
  end.

(** The characters of the class [[A-Z]]. *)
Definition is_AZ (c : char) : bool := ((65 <=? c) && (c <=? 90))%N.

(** [re.sub(r'(?<!^)(?=[A-Z])', repl, text)].  The pattern consumes nothing:
    it matches the empty string at the positions that are not the start of
    the text, [(?<!^)], and that stand before a character of [[A-Z]],
    [(?=[A-Z])].  The position after the last character has no character
    after it, so the matches are found while walking the characters. *)
Definition matches_at (text : str) (pos : nat) : bool :=
  negb (Nat.eqb pos 0) &&
  match text !! pos with
  | Some c => is_AZ c
  | None => false
  end.

Definition re_sub (repl : str) (text : str) : str :=
  concat (imap (fun pos c =>
                  (if matches_at text pos then repl else []) ++ [c]) text).

(** [text.lower()].  An ASCII character is mapped on its own, [A-Z] going to
    [a-z].  Outside ASCII the mapping is that of the Unicode case tables, can
    yield several code points and, for a capital sigma, looks at the
    neighbours: [unicode_lower text pos] stands for what the character at
    [pos] becomes. *)
Definition lower (unicode_lower : str -> nat -> str) (text : str) : str :=
  concat (imap (fun pos c =>
                  if (c <? 128)%N
                  then [if is_AZ c then (c + 32)%N else c]
                  else unicode_lower text pos) text).

(** [text.encode('utf-8')]: one to four bytes for a code point; the
    surrogates [U+D800 .. U+DFFF] have no encoding and raise.  A byte is a
    number below 256. *)
Definition encode_char (c : char) : result (list N) :=
  (if c <? 0x80 then Ok [c]
   else if c <? 0x800 then
     Ok [N.lor 0xC0 (N.shiftr c 6); N.lor 0x80 (N.land c 0x3F)]
   else if c <? 0x10000 then
     if (0xD800 <=? c) && (c <=? 0xDFFF) then Raise UnicodeEncodeError
     else Ok [N.lor 0xE0 (N.shiftr c 12);
              N.lor 0x80 (N.land (N.shiftr c 6) 0x3F);
              N.lor 0x80 (N.land c 0x3F)]
   else
     Ok [N.lor 0xF0 (N.shiftr c 18);
         N.lor 0x80 (N.land (N.shiftr c 12) 0x3F);
         N.lor 0x80 (N.land (N.shiftr c 6) 0x3F);
         N.lor 0x80 (N.land c 0x3F)])%N.

Fixpoint encode_utf8 (text : str) : result (list N) :=
  match text with
  | [] => Ok []
  | c :: rest =>
      bind (encode_char c) (fun b =>
      bind (encode_utf8 rest) (fun bs => Ok (b ++ bs)))
  end.

(** [hexdigest()]: two lowercase hexadecimal digits for each byte. *)
Definition hex_digit (d : N) : char :=
  (if d <? 10 then 48 + d else 87 + d)%N.

Definition hexdigest (digest : list N) : str :=
  flat_map (fun b => [hex_digit ((b / 16) mod 16); hex_digit (b mod 16)]%N)
           digest.

Definition is_hex_digit (c : char) : bool :=
  ((48 <=? c) && (c <=? 57) || (97 <=? c) && (c <=? 102))%N.

(** The characters of the class [[a-z]]. *)
Definition is_az (c : char) : bool := ((97 <=? c) && (c <=? 122))%N.

(** [text.split(sep)] for a separator of one character: the pieces between
    the occurrences of the separator, one more piece than there are
    occurrences. *)
Fixpoint split (sep : char) (text : str) : list str :=
  match text with
  | [] => [[]]
  | c :: rest =>
      if decide (c = sep) then [] :: split sep rest
      else match split sep rest with
           | [] => [[c]]
           | piece :: pieces => (c :: piece) :: pieces
           end
  end.

(** [text.title()].  The characters are walked from left to right; one that
    follows a cased character is put in lower case, any other one in title
    case, which for an ASCII letter is upper case.  Only letters are cased.
    Outside ASCII the case tables decide: [unicode_cased c] tells whether
    [c] is cased and [unicode_title text pos previous_is_cased] is what the
    character at [pos] becomes. *)
Fixpoint title_walk (unicode_cased : char -> bool)
    (unicode_title : nat -> bool -> str)
    (pos : nat) (previous_is_cased : bool) (rest : str) : str :=
  match rest with
  | [] => []
  | c :: rest' =>
      (if (c <? 128)%N then
         [if previous_is_cased
          then (if is_AZ c then (c + 32)%N else c)
          else (if is_az c then (c - 32)%N else c)]
       else unicode_title pos previous_is_cased)
      ++ title_walk unicode_cased unicode_title (S pos)
           (if (c <? 128)%N then is_AZ c || is_az c else unicode_cased c)
           rest'
  end.

Definition title (unicode_cased : char -> bool)
    (unicode_title : str -> nat -> bool -> str) (text : str) : str :=
  title_walk unicode_cased (unicode_title text) 0 false text.

(** [range(start, stop)] *)
Definition range (start stop : Z) : list Z :=
  map (fun k => (start + Z.of_nat k)%Z) (seq 0 (Z.to_nat (stop - start))).

(** *** The built-in [set]

    The language fixes which elements a set holds and that iterating over it
    yields each of them once; the order of the iteration is the
    implementation's.  A set is represented by the sequence in which it is
    iterated.  Whenever a set is built, its elements, taken in the order in
    which they were added, are arranged by [order], which stands for the
    layout policy of the implementation. *)
Section PySet.
Context {A : Type} `{EqDecision A}.
Variable order : list A -> list A.

Abbreviation pyset := (list A) (only parsing).

(** Adding an element that is already there changes nothing. *)
Definition add (s : list A) (x : A) : list A :=
  if decide (x ∈ s) then s else s ++ [x].

(** [set(iterable)] *)
Definition set_ (iterable : list A) : pyset := order (foldl add [] iterable).

(** [s | t]: a copy of [s] to which the elements of [t] are added. *)
Definition set_or (s t : pyset) : pyset := order (foldl add s t).

(** [s & t] *)
Definition set_and (s t : pyset) : pyset :=
  order (filter (fun x => x ∈ t) s).

(** [s - t] *)
Definition set_sub (s t : pyset) : pyset :=
  order (filter (fun x => x ∉ t) s).

(** [list(s)] *)
Definition list_ (s : pyset) : list A := s.
End PySet.

(** The order in which the elements were added.  CPython iterates a set
    slot by slot; 0 and 8 fall on the same slot of its initial table of 8
    slots, the one that is added later is moved further on, and so the two
    are iterated in the order in which they were added. *)
Definition insertion_order {A} (l : list A) : list A := l.

(** *** [sorted(iterable, key=...)]

    The keys are computed first, one call for each element, and an exception
    of the key function ends the call.  The sort is stable: of two elements
    with the same key the one that came first stays first. *)
Fixpoint insert_keyed {A} (kx : nat * A) (l : list (nat * A)) :
    list (nat * A) :=
  match l with
  | [] => [kx]
  | ky :: rest =>
      if (kx.1 <=? ky.1)%nat then kx :: ky :: rest
      else ky :: insert_keyed kx rest
  end.

Definition sort_keyed {A} (l : list (nat * A)) : list (nat * A) :=
  foldr insert_keyed [] l.

Fixpoint with_keys {A} (key : A -> result nat) (l : list A) :
    result (list (nat * A)) :=
  match l with
  | [] => Ok []
  | x :: rest =>
      bind (key x) (fun k =>
      bind (with_keys key rest) (fun kl => Ok ((k, x) :: kl)))
  end.

Definition sorted {A} (l : list A) (key : A -> result nat) : result (list A) :=
  bind (with_keys key l) (fun kl => Ok (snd <$> sort_keyed kl)).

(** *** [hashlib.new]

    [hashlib.new(name)] hands the name to the OpenSSL binding, which takes
    it as a C string: the name is encoded in UTF-8, and a name that cannot
    be encoded or that holds a NUL raises [TypeError] (name must be a
    string).  A name that none of the tables of [hashlib] holds raises
    [ValueError] (unsupported hash type).  The tables are a parameter:
    [algorithms name] is the hash object registered under the name, if there
    is one.  Of a hash object only what [hexdigest()] yields for the bytes
    it was fed matters here: the digest, or the exception of an algorithm
    whose [hexdigest] cannot be called without a length. *)
Definition hashlib_new (algorithms : str -> option (list N -> result (list N)))
    (name : str) : result (list N -> result (list N)) :=
  match encode_utf8 name with
  | Raise _ => Raise TypeError
  | Ok bytes =>
      if decide (0%N ∈ bytes) then Raise TypeError
      else match algorithms name with
           | None => Raise ValueError
           | Some hash_object => Ok hash_object
           end
  end.

(** *** [os.path.split] and [os.makedirs]

    [p.rfind(sep)]: the index of the last occurrence, if there is one. *)
Fixpoint rfind (sep : char) (p : str) : option nat :=
  match p with
  | [] => None
  | c :: rest =>
      match rfind sep rest with
      | Some i => Some (S i)
      | None => if decide (c = sep) then Some 0 else None
      end
  end.

(** [p.rstrip(sep)] for a separator of one character. *)
Fixpoint rstrip (sep : char) (p : str) : str :=
  match p with
  | [] => []
  | c :: rest =>
      match rstrip sep rest with
      | [] => if decide (c = sep) then [] else [c]
      | stripped => c :: stripped
      end
  end.

Definition os_sep : char := 47%N.
Definition curdir : str := [46%N].

(** [os.path.split(p)] of [posixpath]: the tail is what follows the last
    slash; the head is what stands before the tail, without its trailing
    slashes unless it is made of slashes only. *)
Definition path_split (p : str) : str * str :=
  let i := match rfind os_sep p with Some i => S i | None => 0 end in
  let head := take i p in
  let tail := drop i p in
  let head :=
    if bool_decide (head <> []) &&
       bool_decide (head <> replicate (length head) os_sep)
    then rstrip os_sep head else head in
  (head, tail).

Section OS.
(** The operating system: the states of its file system, [os.path.exists]
    and [os.mkdir].  What [os.mkdir] does, and which error it raises, is
    the system's affair. *)
Context {FS : Type}.
Variable os_path_exists : FS -> str -> bool.
Variable os_mkdir : str -> FS -> result unit * FS.

(** [os.makedirs(name)], with [exist_ok] left at [False], as [os.py] has it:
    the head of the name is made first when it is missing, a
    [FileExistsError] from making it is passed over and any other exception
    propagates; a name that ends in [.] is taken to exist once its head was
    made; in every other case the directory is made by [os.mkdir], whose
    exceptions propagate.  [depth] is the number of nested calls that the
    interpreter still allows. *)
Fixpoint makedirs (depth : nat) (name : str) (fs : FS) : result unit * FS :=
  match depth with
  | O => (Raise RecursionError, fs)
  | S depth' =>
      let (head, tail) := path_split name in
      let (head, tail) :=
        if decide (tail = []) then path_split head else (head, tail) in
      if bool_decide (head <> []) && bool_decide (tail <> []) &&
         negb (os_path_exists fs head)
      then
        match makedirs depth' head fs with
        | (Ok _, fs') | (Raise FileExistsError, fs') =>
            if decide (tail = curdir) then (Ok tt, fs')
            else os_mkdir name fs'
        | (Raise e, fs') => (Raise e, fs')
        end
      else os_mkdir name fs
  end.
End OS.

End Py.

(** ** The functions of [class Utils] *)

Module Utils.
Import Py.

(** *** [generate_random_password] *)

Definition ascii_lowercase : str := lit "abcdefghijklmnopqrstuvwxyz".
Definition ascii_uppercase : str := lit "ABCDEFGHIJKLMNOPQRSTUVWXYZ".
Definition ascii_letters : str := ascii_lowercase ++ ascii_uppercase.
Definition digits : str := lit "0123456789".
(** [string.punctuation]; 34 is the double quote. *)
Definition punctuation : str :=
  lit "!" ++ [34%N] ++ lit "#$%&'()*+,-./:;<=>?@[\]^_`{|}~".

Section Random.
(** The random source: its state and [_randbelow(n)], which draws a number
    below [n] and moves the state on. *)
Variable rng : Type.
Variable randbelow : nat -> rng -> nat * rng.

(** [random.choice(seq)]: [seq[_randbelow(len(seq))]] *)
Definition choice (seq : str) (g : rng) : result char * rng :=
  let (i, g') := randbelow (length seq) g in
  match seq !! i with
  | Some c => (Ok c, g')
  | None => (Raise IndexError, g')
  end.

(** [random.choice(characters) for _ in range(n)], drawn one after the
    other. *)
Fixpoint choices (characters : str) (n : nat) (g : rng) :
    result (list char) * rng :=
  match n with
  | O => (Ok [], g)
  | S n' =>
      match choice characters g with
      | (Ok c, g1) =>
          match choices characters n' g1 with
          | (Ok cs, g2) => (Ok (c :: cs), g2)
          | (Raise e, g2) => (Raise e, g2)
          end
      | (Raise e, g1) => (Raise e, g1)
      end
  end.

Definition generate_random_password (length : Z) (g : rng) :
    result str * rng :=
  let characters := ascii_letters ++ digits ++ punctuation in
  match choices characters (Z.to_nat length) g with
  | (Ok cs, g') => (Ok (join [] (map (fun c => [c]) cs)), g')
  | (Raise e, g') => (Raise e, g')
  end.
End Random.

(** *** [camel_case_to_snake_case] *)

Definition camel_case_to_snake_case (unicode_lower : str -> nat -> str)
    (text : str) : str :=
  lower unicode_lower (re_sub (lit "_") text).

(** *** [reverse_string] *)

Definition reverse_string (text : str) : str := slice_backwards text.

(** *** [remove_duplicates] *)

Definition remove_duplicates (order : list char -> list char) (text : str) :
    result str :=
  bind (sorted (list_ (set_ order text)) (index text)) (fun cs =>
  Ok (join [] (map (fun c => [c]) cs))).

(** *** [calculate_hash] *)

Section Hashing.
Variable algorithms : str -> option (list N -> result (list N)).

Definition calculate_hash (text : str) (algorithm : str) : result str :=
  bind (hashlib_new algorithms algorithm) (fun hash_algorithm =>
  bind (encode_utf8 text) (fun data =>
  bind (hash_algorithm data) (fun digest =>
  Ok (hexdigest digest)))).
End Hashing.

(** *** [is_prime] *)

Local Open Scope Z_scope.

(** [while i * i <= number: ...; i += 6].  Whenever the guard holds,
    [i <= i * i <= number], so [number + 1 - i] is a positive quantity that
    the loop body lowers by six. *)
Equations? is_prime_loop (number i : Z) : bool
  by wf (Z.to_nat (number + 1 - i)) lt :=
is_prime_loop number i with Z_le_dec (i * i) number := {
  | left _ =>
      if (number mod i =? 0) || (number mod (i + 2) =? 0)
      then false
      else is_prime_loop number (i + 6)
  | right _ => true }.
Proof. nia. Qed.

Definition is_prime (number : Z) : bool :=
  if number <=? 1 then false
  else if number <=? 3 then true
  else if (number mod 2 =? 0) || (number mod 3 =? 0) then false
  else is_prime_loop number 5.

(** *** [factorial]

    [depth] is the number of nested calls that the interpreter still allows;
    a call made when none is left raises [RecursionError]. *)
Fixpoint factorial (depth : nat) (number : Z) : result Z :=
  match depth with
  | O => Raise RecursionError
  | S depth' =>
      if number =? 0 then Ok 1
      else bind (factorial depth' (number - 1)) (fun f => Ok (number * f))
  end.

Local Close Scope Z_scope.

(** *** [list_intersection], [list_union], [list_difference] *)

Section Lists.
Context {A : Type} `{EqDecision A}.
Variable order : list A -> list A.

Definition list_intersection (list1 list2 : list A) : list A :=
  list_ (set_and order (set_ order list1) (set_ order list2)).

Definition list_union (list1 list2 : list A) : list A :=
  list_ (set_or order (set_ order list1) (set_ order list2)).

Definition list_difference (list1 list2 : list A) : list A :=
  list_ (set_sub order (set_ order list1) (set_ order list2)).
End Lists.

(** *** [snake_case_to_camel_case] *)

Definition snake_case_to_camel_case (unicode_cased : char -> bool)
    (unicode_title : str -> nat -> bool -> str) (text : str) : result str :=
  let parts := split 95%N text in
  match parts with
  | [] => Raise IndexError
  | first :: others =>
      Ok (first ++ join [] (map (title unicode_cased unicode_title) others))
  end.

(** *** [count_vowels] *)

Definition vowels : str := lit "aeiouAEIOU".

Definition count_vowels (text : str) : Z :=
  foldl (fun total char =>
           if decide (char ∈ vowels) then (total + 1)%Z else total) 0%Z text.

(** *** [is_palindrome] *)

Definition is_palindrome (text : str) : bool :=
  bool_decide (text = slice_backwards text).

(** *** [generate_prime_numbers] *)

Definition generate_prime_numbers (limit : Z) : list Z :=
  foldl (fun primes num => if is_prime num then primes ++ [num] else primes)
        [] (range 2 (limit + 1)).

(** *** [create_directory] *)

Section Directories.
Context {FS : Type}.
Variable os_path_exists : FS -> str -> bool.
Variable os_mkdir : str -> FS -> result unit * FS.

Definition create_directory (depth : nat) (directory : str) (fs : FS) :
    result unit * FS :=
  if negb (os_path_exists fs directory)
  then makedirs os_path_exists os_mkdir depth directory fs
  else (Ok tt, fs).
End Directories.

End Utils.

(** ** The vocabulary of the statements *)

Import Py Utils.

(** What the loop has tested when it ends without finding a divisor: every
    candidate [i + 6 m] whose square does not exceed [number], and with each
    the number two above it. *)
Definition passes (number i : Z) : Prop :=
  (forall m, 0 <= m -> (i + 6 * m) * (i + 6 * m) <= number ->
     number mod (i + 6 * m) <> 0 /\ number mod (i + 6 * m + 2) <> 0)%Z.

(** [c] occurs at position [p] of the text and nowhere before. *)
Definition first_at (text : str) (c : char) (p : nat) : Prop :=
  text !! p = Some c /\ forall q, q < p -> text !! q <> Some c.

(** The position that [text.index] finds, where it finds one. *)
Definition position (text : str) (c : char) : nat :=
  match index text c with
  | Ok p => p
  | Raise _ => 0
  end.

Definition by_key {A} (a b : nat * A) : Prop := a.1 <= b.1.

(** A random source to run the generator on: a counter that is reduced
    modulo the bound and stepped. *)
Definition counter_randbelow (n : nat) (g : nat) : nat * nat :=
  (g mod n, S (g * 7)).

(** The code points that UTF-8 cannot encode. *)
Definition surrogate (c : char) : Prop := (0xD800 <= c <= 0xDFFF)%N.

#[global] Instance surrogate_dec (c : char) : Decision (surrogate c).
Proof. unfold surrogate. apply _. Defined.

(** The names that the specification wants supported. *)
Definition required_algorithms : list str :=
  [lit "md5"; lit "sha1"; lit "sha256"].

(** A registry to run [calculate_hash] on: the three names, each bound to
    the sum of the bytes modulo 256 as a one-byte digest. *)
Definition byte_sum (data : list N) : result (list N) :=
  Ok [(foldr N.add 0 data mod 256)%N].

Definition sample_hashlib (name : str) : option (list N -> result (list N)) :=
  if decide (name ∈ required_algorithms) then Some byte_sum else None.

(** Texts of ASCII characters, of letters, of lower-case letters. *)
Definition ascii (text : str) : Prop := Forall (fun c => (c < 128)%N) text.
Definition letters (text : str) : Prop :=
  Forall (fun c => is_AZ c = true \/ is_az c = true) text.
Definition lowercase (text : str) : Prop :=
  Forall (fun c => is_az c = true) text.

(** What [lower] makes of an ASCII character, and what [title] makes of
    one that starts a word. *)
Definition to_lower (c : char) : char := if is_AZ c then (c + 32)%N else c.
Definition to_upper (c : char) : char := if is_az c then (c - 32)%N else c.

(** What the conversion to snake case makes of the ASCII characters after
    the first one. *)
Definition snake_tail (rest : str) : str :=
  concat ((fun d => if is_AZ d then [95%N; (d + 32)%N] else [d]) <$> rest).

(** Names that the OpenSSL binding takes as C strings: no NUL and no
    surrogate code point. *)
Definition c_string (name : str) : Prop :=
  (0%N ∉ name) /\ Forall (fun c => ~ surrogate c) name.

(** The last component of a path as [os.makedirs] sees it: the tail of the
    path, or of its head when the path ends in a slash. *)
Definition last_component (name : str) : str :=
  let (head, tail) := path_split name in
  if decide (tail = []) then (path_split head).2 else tail.

(** A sample of an operating system, to run [create_directory] on: a tree
    of directories and regular files below a root that is also the working
    directory, as Linux resolves paths on it, without links, permissions
    or limits on names.  An entry is the list of its names from the
    innermost one up to the root, and the root is always a directory. *)
Inductive node : Set := Dir | File.

Abbreviation entry := (list str) (only parsing).

Definition kind (fs : gmap entry node) (e : entry) : option node :=
  match e with
  | [] => Some Dir
  | _ => fs !! e
  end.

Definition pardir : str := [46%N; 46%N].

(** One component further from a directory: an empty component and [.]
    stay, [..] goes up, a name goes down. *)
Definition step (cur : entry) (c : str) : entry :=
  if decide (c = [] \/ c = curdir) then cur
  else if decide (c = pardir) then tail cur
  else c :: cur.

(** Resolution of a list of components: every entry that is left must be
    a directory. *)
Fixpoint walk (fs : gmap entry node) (cur : entry) (comps : list str) :
    result entry :=
  match comps with
  | [] => Ok cur
  | c :: rest =>
      match kind fs cur with
      | None => Raise FileNotFoundError
      | Some File => Raise NotADirectoryError
      | Some Dir => walk fs (step cur c) rest
      end
  end.

Definition sample_exists (fs : gmap entry node) (p : str) : bool :=
  if decide (p = [] \/ 0%N ∈ p) then false
  else match walk fs [] (split os_sep p) with
       | Ok e => bool_decide (is_Some (kind fs e))
       | Raise _ => false
       end.

(** The components without the empty ones at the end, which trailing
    slashes leave. *)
Fixpoint strip_empty (comps : list str) : list str :=
  match comps with
  | [] => []
  | c :: rest =>
      match strip_empty rest with
      | [] => if decide (c = []) then [] else [c]
      | stripped => c :: stripped
      end
  end.

Fixpoint unsnoc {A} (l : list A) : option (list A * A) :=
  match l with
  | [] => None
  | x :: rest =>
      match unsnoc rest with
      | None => Some ([], x)
      | Some (init, last) => Some (x :: init, last)
      end
  end.

Definition sample_mkdir (p : str) (fs : gmap entry node) :
    result unit * gmap entry node :=
  if decide (0%N ∈ p) then (Raise ValueError, fs)
  else if decide (p = []) then (Raise FileNotFoundError, fs)
  else
    match unsnoc (strip_empty (split os_sep p)) with
    | None => (Raise FileExistsError, fs)
    | Some (init, last) =>
        match walk fs [] init with
        | Raise e => (Raise e, fs)
        | Ok parent =>
            match kind fs parent with
            | None => (Raise FileNotFoundError, fs)
            | Some File => (Raise NotADirectoryError, fs)
            | Some Dir =>
                if decide (last = curdir \/ last = pardir)
                then (Raise FileExistsError, fs)
                else if decide (is_Some (kind fs (last :: parent)))
                then (Raise FileExistsError, fs)
                else (Ok tt, <[last :: parent := Dir]> fs)
            end
        end
    end.

(** * Properties *)

(** ** Primality *)

Section Primality.
Local Open Scope Z_scope.

Lemma is_prime_loop_step number i :
  is_prime_loop number i =
  if Z_le_dec (i * i) number
  then if (number mod i =? 0) || (number mod (i + 2) =? 0)
       then false else is_prime_loop number (i + 6)
  else true.
Proof.
  rewrite is_prime_loop_equation_1.
  destruct (Z_le_dec (i * i) number); simpl; reflexivity.
Qed.

Lemma is_prime_loop_passes number i :
  0 < i -> is_prime_loop number i = true <-> passes number i.
Proof.
  remember (Z.to_nat (number + 1 - i)) as k eqn:Hk.
  revert i Hk. induction (lt_wf k) as [k _ IH]. intros i Hk Hi.
  rewrite is_prime_loop_step.
  destruct (Z_le_dec (i * i) number) as [Hle|Hgt].
  - destruct (Z.eqb_spec (number mod i) 0) as [H0|H0]; simpl.
    { split; [discriminate|]. intros P. destruct (P 0) as [P0 _]; [lia| |].
      - replace (i + 6 * 0) with i by lia. exact Hle.
      - replace (i + 6 * 0) with i in P0 by lia. contradiction. }
    destruct (Z.eqb_spec (number mod (i + 2)) 0) as [H2|H2]; simpl.
    { split; [discriminate|]. intros P. destruct (P 0) as [_ P2]; [lia| |].
      - replace (i + 6 * 0) with i by lia. exact Hle.
      - replace (i + 6 * 0 + 2) with (i + 2) in P2 by lia. contradiction. }
    rewrite (IH (Z.to_nat (number + 1 - (i + 6)))); [|nia|reflexivity|lia].
    split; intros P m Hm Hsq.
    + destruct (Z.eq_dec m 0) as [->|Hne].
      * replace (i + 6 * 0) with i by lia. split; assumption.
      * specialize (P (m - 1)).
        replace (i + 6 + 6 * (m - 1)) with (i + 6 * m) in P by lia.
        apply P; [lia|exact Hsq].
    + specialize (P (m + 1)).
      replace (i + 6 * (m + 1)) with (i + 6 + 6 * m) in P by lia.
      apply P; [lia|exact Hsq].
  - split; [|reflexivity]. intros _ m Hm Hsq. nia.
Qed.

Lemma mod_zero_divide (n d : Z) : d <> 0 -> n mod d = 0 <-> (d | n).
Proof. intros Hd. apply Z.mod_divide. exact Hd. Qed.

(** A proper divisor comes with a cofactor, and the smaller of the two has
    its square below [n]. *)
Lemma small_divisor (n d : Z) :
  1 < d < n -> (d | n) -> exists d', 1 < d' /\ d' * d' <= n /\ (d' | n).
Proof.
  intros Hd [e He].
  assert (1 < e) by nia.
  destruct (Z_le_dec d e).
  - exists d. repeat split; [lia|nia|]. exists e. exact He.
  - exists e. repeat split; [lia|nia|]. exists d. lia.
Qed.

(** A number that is neither even nor a multiple of three has its divisors
    among the numbers [6 k - 1] and [6 k + 1]. *)
Lemma passes_no_small_divisor (n : Z) :
  n mod 2 <> 0 -> n mod 3 <> 0 -> passes n 5 ->
  forall d, 1 < d -> d * d <= n -> ~ (d | n).
Proof.
  intros H2 H3 P d Hd Hsq Hdiv.
  assert (Hmod : n mod d = 0) by (apply mod_zero_divide; [lia|exact Hdiv]).
  pose proof (Z.div_mod d 6 ltac:(lia)) as Hdm.
  pose proof (Z.mod_pos_bound d 6 ltac:(lia)) as Hr.
  set (q := d / 6) in *. set (r := d mod 6) in *.
  assert (Hcases : r = 0 \/ r = 1 \/ r = 2 \/ r = 3 \/ r = 4 \/ r = 5) by lia.
  destruct Hcases as [Hr0|[Hr1|[Hr2|[Hr3|[Hr4|Hr5]]]]].
  - apply H2, mod_zero_divide; [lia|].
    apply Z.divide_trans with d; [exists (3 * q); lia|exact Hdiv].
  - destruct (P (q - 1)) as [_ Hc]; [lia|nia|].
    apply Hc. replace (5 + 6 * (q - 1) + 2) with d by lia. exact Hmod.
  - apply H2, mod_zero_divide; [lia|].
    apply Z.divide_trans with d; [exists (3 * q + 1); lia|exact Hdiv].
  - apply H3, mod_zero_divide; [lia|].
    apply Z.divide_trans with d; [exists (2 * q + 1); lia|exact Hdiv].
  - apply H2, mod_zero_divide; [lia|].
    apply Z.divide_trans with d; [exists (3 * q + 2); lia|exact Hdiv].
  - destruct (P q) as [Hc _]; [lia|nia|].
    apply Hc. replace (5 + 6 * q) with d by lia. exact Hmod.
Qed.

Lemma prime_no_proper_divisor (n d : Z) :
  Z.prime n -> 1 < d < n -> n mod d <> 0.
Proof.
  intros [_ Hp] Hd Hmod. apply (Hp d Hd).
  apply mod_zero_divide; [lia|exact Hmod].
Qed.

Lemma trial_division (n : Z) :
  3 < n ->
  (n mod 2 <> 0 /\ n mod 3 <> 0 /\ passes n 5) <-> Z.prime n.
Proof.
  intros Hn. split.
  - intros (H2 & H3 & P). split; [lia|].
    intros d Hd Hdiv.
    destruct (small_divisor n d Hd Hdiv) as (d' & Hd' & Hsq & Hdiv').
    exact (passes_no_small_divisor n H2 H3 P d' Hd' Hsq Hdiv').
  - intros Hp. split; [|split].
    + apply prime_no_proper_divisor; [exact Hp|lia].
    + apply prime_no_proper_divisor; [exact Hp|lia].
    + intros m Hm Hsq. split; apply prime_no_proper_divisor; try exact Hp; nia.
Qed.

Lemma is_prime_trial (n : Z) :
  3 < n ->
  is_prime n = true <-> (n mod 2 <> 0 /\ n mod 3 <> 0 /\ passes n 5).
Proof.
  intros Hn. unfold is_prime.
  destruct (Z.leb_spec n 1); [lia|]. destruct (Z.leb_spec n 3); [lia|].
  destruct (Z.eqb_spec (n mod 2) 0) as [H2|H2]; simpl.
  { split; [discriminate|]. intros (? & _). contradiction. }
  destruct (Z.eqb_spec (n mod 3) 0) as [H3|H3]; simpl.
  { split; [discriminate|]. intros (_ & ? & _). contradiction. }
  rewrite is_prime_loop_passes by lia. tauto.
Qed.

Lemma passes_6k (n : Z) :
  passes n 5 <->
  forall k, 1 <= k -> (6 * k - 1) * (6 * k - 1) <= n ->
    n mod (6 * k - 1) <> 0 /\ n mod (6 * k + 1) <> 0.
Proof.
  split; intros P.
  - intros k Hk Hsq. specialize (P (k - 1)).
    replace (5 + 6 * (k - 1)) with (6 * k - 1) in P by lia.
    replace (6 * k - 1 + 2) with (6 * k + 1) in P by lia.
    apply P; [lia|exact Hsq].
  - intros m Hm Hsq. specialize (P (m + 1)).
    replace (6 * (m + 1) - 1) with (5 + 6 * m) in P by lia.
    replace (6 * (m + 1) + 1) with (5 + 6 * m + 2) in P by lia.
    apply P; [lia|exact Hsq].
Qed.

Lemma prime_2_3 (n : Z) : 1 < n <= 3 -> Z.prime n.
Proof.
  intros Hn. split; [lia|]. intros d Hd [e He].
  assert (d = 2) as -> by lia. lia.
Qed.

(** C1.  [is_prime n] is [true] exactly when [n] is a prime number.  It is
    [false] for every [n <= 1] and [true] for 2 and 3.  Above 3 it is a
    trial division: [n] passes when it is neither even nor a multiple of 3
    and no candidate [6 k - 1] whose square is at most [n], nor the
    [6 k + 1] that goes with it, divides [n]. *)
Theorem is_prime_correct (n : Z) :
  (is_prime n = true <-> Z.prime n) /\
  (n <= 1 -> is_prime n = false) /\
  is_prime 2 = true /\ is_prime 3 = true /\
  (3 < n ->
   (is_prime n = true <->
    n mod 2 <> 0 /\ n mod 3 <> 0 /\
    forall k, 1 <= k -> (6 * k - 1) * (6 * k - 1) <= n ->
      n mod (6 * k - 1) <> 0 /\ n mod (6 * k + 1) <> 0)).
Proof.
  split; [|split; [|split; [|split]]].
  - destruct (Z_le_dec n 1) as [H1|H1].
    { unfold is_prime. destruct (Z.leb_spec n 1); [|lia].
      split; [discriminate|]. intros [Hp _]. lia. }
    destruct (Z_le_dec n 3) as [H3|H3].
    { unfold is_prime. destruct (Z.leb_spec n 1); [lia|].
      destruct (Z.leb_spec n 3); [|lia].
      split; [intros _; apply prime_2_3; lia|reflexivity]. }
    rewrite is_prime_trial by lia. apply trial_division. lia.
  - intros H1. unfold is_prime. destruct (Z.leb_spec n 1); [reflexivity|lia].
  - reflexivity.
  - reflexivity.
  - intros Hn. rewrite is_prime_trial by lia. rewrite passes_6k. tauto.
Qed.

(** The examples of the specification: 17 is found prime and 1 is not, and
    a square of a prime, 49, is caught by the companion candidate 7. *)
Lemma is_prime_correct_witness :
  is_prime 17 = true /\ is_prime 1 = false /\ is_prime 49 = false.
Proof.
  destruct (is_prime_correct 17) as (_ & _ & _ & _ & H17).
  destruct (is_prime_correct 1) as (_ & H1 & _).
  destruct (is_prime_correct 49) as (_ & _ & _ & _ & H49).
  split; [|split].
  - apply H17; [lia|]. split; [discriminate|]. split; [discriminate|].
    intros k Hk Hsq. exfalso. nia.
  - apply H1. lia.
  - apply not_true_is_false. intros E.
    apply H49 in E; [|lia]. destruct E as (_ & _ & E).
    destruct (E 1) as [_ E7]; [lia|lia|]. exfalso. apply E7. reflexivity.
Defined.

End Primality.

(** ** Factorial *)

Section Factorial.
Local Open Scope Z_scope.

Lemma factorial_nonneg (n : nat) (depth : nat) :
  (n < depth)%nat ->
  factorial depth (Z.of_nat n) = Ok (Z.of_nat (fact n)).
Proof.
  revert depth. induction n as [|n IH]; intros depth Hd.
  - destruct depth; [lia|]. reflexivity.
  - destruct depth as [|depth]; [lia|].
    cbn [factorial]. destruct (Z.eqb_spec (Z.of_nat (S n)) 0); [lia|].
    replace (Z.of_nat (S n) - 1) with (Z.of_nat n) by lia.
    rewrite IH by lia. cbn [bind]. f_equal.
    change (fact (S n)) with (S n * fact n)%nat. lia.
Qed.

Lemma factorial_too_deep (depth : nat) (n : Z) :
  n < 0 \/ Z.of_nat depth <= n -> factorial depth n = Raise RecursionError.
Proof.
  revert n. induction depth as [|depth IH]; intros n Hn; [reflexivity|].
  cbn [factorial]. destruct (Z.eqb_spec n 0); [lia|].
  rewrite IH by lia. reflexivity.
Qed.




End Factorial.

(** ** Text *)

Section Reverse.
Context {A : Type}.

Lemma range_down_below (n : nat) : Forall (fun i => i < n) (range_down n).
Proof.
  induction n as [|n IH]; [constructor|]. cbn. constructor; [lia|].
  eapply Forall_impl; [exact IH|]. cbn. lia.
Qed.

Lemma omap_lookup_snoc (l : list A) (x : A) (idx : list nat) :
  Forall (fun i => i < length l) idx ->
  omap (fun i => (l ++ [x]) !! i) idx = omap (fun i => l !! i) idx.
Proof.
  induction 1 as [|i idx Hi _ IH]; [reflexivity|].
  cbn. rewrite lookup_app_l by exact Hi. rewrite IH. reflexivity.
Qed.

(** The backward slice is the reversed sequence. *)
Lemma slice_backwards_reverse (text : list A) :
  slice_backwards text = reverse text.
Proof.
  induction text as [|x l IH] using rev_ind; [reflexivity|].
  unfold slice_backwards in *.
  rewrite length_app, Nat.add_comm. cbn.
  rewrite (list_lookup_middle l [] x (length l) eq_refl).
  rewrite (omap_lookup_snoc l x _ (range_down_below _)), IH.
  cbn. rewrite reverse_snoc. reflexivity.
Qed.

End Reverse.

(** C8.  Reversing a string twice gives it back. *)
Theorem reverse_string_involutive (s : str) :
  reverse_string (reverse_string s) = s.
Proof.
  unfold reverse_string. rewrite !slice_backwards_reverse.
  apply reverse_involutive.
Qed.

Section CamelCase.
Variable unicode_lower : str -> nat -> str.

Lemma re_sub_head (repl text : str) : head (re_sub repl text) = head text.
Proof.
  destruct text as [|c rest]; [reflexivity|].
  unfold re_sub. rewrite imap_cons. reflexivity.
Qed.

Lemma underscore : head (lit "_") = Some 95%N.
Proof. reflexivity. Qed.

Lemma re_sub_cons (repl : str) (c : char) (rest : str) :
  exists rest', re_sub repl (c :: rest) = c :: rest'.
Proof. unfold re_sub. rewrite imap_cons. eexists. reflexivity. Qed.

Lemma lower_cons (c : char) (rest : str) :
  lower unicode_lower (c :: rest) =
  (if (c <? 128)%N then [if is_AZ c then (c + 32)%N else c]
   else unicode_lower (c :: rest) 0)
  ++ concat (imap (fun pos c' =>
                     if (c' <? 128)%N
                     then [if is_AZ c' then (c' + 32)%N else c']
                     else unicode_lower (c :: rest) (S pos)) rest).
Proof. unfold lower. rewrite imap_cons. reflexivity. Qed.

(** C4.  No separator goes before a first character: the substitution
    leaves the head of every text as it is.  So a text that begins with a
    letter of [A-Z] comes out beginning with that letter in lower case, not
    with ["_"]; and ["HelloWorld"] becomes ["hello_world"].  More generally,
    as long as the case tables turn no character outside ASCII into nothing
    or into something that begins with ["_"], only a text that begins with
    ["_"] comes out beginning with ["_"]. *)
Theorem camel_case_leading_upper :
  (forall text : str, head (re_sub (lit "_") text) = head text) /\
  (forall (c : char) (rest : str),
     is_AZ c = true ->
     head (camel_case_to_snake_case unicode_lower (c :: rest))
       = Some (c + 32)%N /\
     head (camel_case_to_snake_case unicode_lower (c :: rest))
       <> head (lit "_")) /\
  ((forall text pos, exists d ds,
      unicode_lower text pos = d :: ds /\ Some d <> head (lit "_")) ->
   forall (c : char) (rest : str),
     Some c <> head (lit "_") ->
     head (camel_case_to_snake_case unicode_lower (c :: rest))
       <> head (lit "_")) /\
  camel_case_to_snake_case unicode_lower (lit "HelloWorld")
    = lit "hello_world".
Proof.
  split; [intros text; apply re_sub_head|].
  split; [|split; [|vm_compute; reflexivity]].
  - intros c rest Hc. unfold camel_case_to_snake_case.
    destruct (re_sub_cons (lit "_") c rest) as [rest' ->].
    rewrite lower_cons, Hc, underscore.
    unfold is_AZ in Hc. apply andb_true_iff in Hc as [H1 H2].
    apply N.leb_le in H1, H2.
    destruct (N.ltb_spec c 128) as [_|?]; [|lia].
    cbn [app head]. split; [reflexivity|]. intros [= E]. lia.
  - intros Htables c rest Hc. unfold camel_case_to_snake_case.
    destruct (re_sub_cons (lit "_") c rest) as [rest' ->].
    rewrite lower_cons.
    destruct (N.ltb_spec c 128) as [Hascii|Hother].
    + cbn [app head]. rewrite underscore in *. unfold is_AZ.
      destruct (N.leb_spec 65 c), (N.leb_spec c 90); cbn [andb];
        try exact Hc.
      intros [= E]. lia.
    + destruct (Htables (c :: rest') 0) as (d & ds & -> & Hd). exact Hd.
Qed.

End CamelCase.

Lemma camel_case_leading_upper_witness :
  head (camel_case_to_snake_case (fun _ _ => [63%N]) (lit "Xy"))
    = Some 120%N /\
  head (camel_case_to_snake_case (fun _ _ => [63%N]) [201%N; 116%N])
    <> head (lit "_").
Proof.
  destruct (camel_case_leading_upper (fun _ _ => [63%N]))
    as (_ & Hupper & Hany & _).
  split.
  - apply (Hupper 88%N (lit "y")). reflexivity.
  - apply Hany.
    + intros _ _. exists 63%N, []. split; [reflexivity|].
      rewrite underscore. discriminate.
    + rewrite underscore. discriminate.
Defined.

(** ** Sets and the list operations built on them *)

Section SetFacts.
Context {A : Type} `{EqDecision A}.
Variable order : list A -> list A.
Hypothesis order_perm : forall l, order l ≡ₚ l.

Lemma elem_of_add (s : list A) (y x : A) : x ∈ add s y <-> x ∈ s \/ x = y.
Proof.
  unfold add. destruct (decide (y ∈ s)) as [Hy|Hy].
  - split; [tauto|]. intros [?| ->]; assumption.
  - rewrite elem_of_app, list_elem_of_singleton. tauto.
Qed.

Lemma NoDup_add (s : list A) (y : A) : NoDup s -> NoDup (add s y).
Proof.
  intros Hs. unfold add. destruct (decide (y ∈ s)) as [Hy|Hy]; [exact Hs|].
  apply NoDup_app. split; [exact Hs|]. split; [|apply NoDup_singleton].
  intros x Hx Hxy. apply list_elem_of_singleton in Hxy. subst. contradiction.
Qed.

Lemma elem_of_foldl_add (l s : list A) (x : A) :
  x ∈ foldl add s l <-> x ∈ s \/ x ∈ l.
Proof.
  revert s. induction l as [|y l IH]; intros s; cbn [foldl].
  - rewrite elem_of_nil. tauto.
  - rewrite IH, elem_of_add, elem_of_cons. tauto.
Qed.

Lemma NoDup_foldl_add (l s : list A) : NoDup s -> NoDup (foldl add s l).
Proof.
  revert s. induction l as [|y l IH]; intros s Hs; cbn [foldl].
  - exact Hs.
  - apply IH, NoDup_add, Hs.
Qed.

Lemma elem_of_order (l : list A) (x : A) : x ∈ order l <-> x ∈ l.
Proof. rewrite (order_perm l). reflexivity. Qed.

Lemma NoDup_order (l : list A) : NoDup (order l) <-> NoDup l.
Proof. rewrite (order_perm l). reflexivity. Qed.

Lemma elem_of_set (l : list A) (x : A) : x ∈ set_ order l <-> x ∈ l.
Proof.
  unfold set_. rewrite elem_of_order, elem_of_foldl_add, elem_of_nil. tauto.
Qed.

Lemma NoDup_set (l : list A) : NoDup (set_ order l).
Proof. apply NoDup_order, NoDup_foldl_add, NoDup_nil_2. Qed.

Lemma elem_of_set_or (s t : list A) (x : A) :
  x ∈ set_or order s t <-> x ∈ s \/ x ∈ t.
Proof. unfold set_or. rewrite elem_of_order. apply elem_of_foldl_add. Qed.

Lemma NoDup_set_or (s t : list A) : NoDup s -> NoDup (set_or order s t).
Proof. intros Hs. apply NoDup_order, NoDup_foldl_add, Hs. Qed.

Lemma elem_of_set_and (s t : list A) (x : A) :
  x ∈ set_and order s t <-> x ∈ s /\ x ∈ t.
Proof.
  unfold set_and. rewrite elem_of_order, list_elem_of_filter. tauto.
Qed.

Lemma NoDup_set_and (s t : list A) : NoDup s -> NoDup (set_and order s t).
Proof. intros Hs. apply NoDup_order, NoDup_filter, Hs. Qed.

Lemma elem_of_set_sub (s t : list A) (x : A) :
  x ∈ set_sub order s t <-> x ∈ s /\ x ∉ t.
Proof.
  unfold set_sub. rewrite elem_of_order, list_elem_of_filter. tauto.
Qed.

Lemma NoDup_set_sub (s t : list A) : NoDup s -> NoDup (set_sub order s t).
Proof. intros Hs. apply NoDup_order, NoDup_filter, Hs. Qed.

(** C9.  Whatever the iteration order, each of the three results lists its
    elements once, and holds exactly the elements of the intersection, of
    the union and of the difference of the two arguments. *)
Theorem list_operations_are_set_operations (a b : list A) :
  (NoDup (list_intersection order a b) /\
   forall x, x ∈ list_intersection order a b <-> x ∈ a /\ x ∈ b) /\
  (NoDup (list_union order a b) /\
   forall x, x ∈ list_union order a b <-> x ∈ a \/ x ∈ b) /\
  (NoDup (list_difference order a b) /\
   forall x, x ∈ list_difference order a b <-> x ∈ a /\ x ∉ b).
Proof.
  unfold list_intersection, list_union, list_difference, list_.
  split; [|split]; (split; [|intros x]).
  - apply NoDup_set_and, NoDup_set.
  - rewrite elem_of_set_and, !elem_of_set. tauto.
  - apply NoDup_set_or, NoDup_set.
  - rewrite elem_of_set_or, !elem_of_set. tauto.
  - apply NoDup_set_sub, NoDup_set.
  - rewrite elem_of_set_sub, !elem_of_set. tauto.
Qed.

(** C3, as the code has it.  The two unions hold the same elements, each
    once, so one is a rearrangement of the other; and what is in the
    intersection is in both arguments. *)
Theorem list_union_permutation (a b : list A) :
  list_union order a b ≡ₚ list_union order b a /\
  (forall x, x ∈ list_intersection order a b -> x ∈ a /\ x ∈ b).
Proof.
  split.
  - apply NoDup_Permutation.
    + apply NoDup_set_or, NoDup_set.
    + apply NoDup_set_or, NoDup_set.
    + intros x. unfold list_union, list_.
      rewrite !elem_of_set_or, !elem_of_set. tauto.
  - intros x. unfold list_intersection, list_.
    rewrite elem_of_set_and, !elem_of_set. tauto.
Qed.

End SetFacts.

Lemma list_operations_are_set_operations_witness :
  NoDup (list_union insertion_order [1; 2; 2; 3]%Z [3; 4; 4]%Z).
Proof.
  apply (list_operations_are_set_operations insertion_order
           (fun l => Permutation_refl l) [1; 2; 2; 3]%Z [3; 4; 4]%Z).
Defined.

Lemma list_union_permutation_witness :
  list_union insertion_order [0]%Z [8]%Z
    ≡ₚ list_union insertion_order [8]%Z [0]%Z.
Proof.
  apply (list_union_permutation insertion_order
           (fun l => Permutation_refl l) [0]%Z [8]%Z).
Defined.

(** C3, as the specification has it, fails: with 0 and 8, which CPython
    keeps in the order in which they were added, the union of [[0]] and
    [[8]] is [[0; 8]] and the union of [[8]] and [[0]] is [[8; 0]]. *)
Lemma list_union_not_commutative :
  list_union insertion_order [0]%Z [8]%Z
    <> list_union insertion_order [8]%Z [0]%Z.
Proof. vm_compute. discriminate. Qed.

(** ** Duplicate removal *)

Section Sorting.
Context {A : Type}.
Implicit Types (l : list (nat * A)) (kx : nat * A).

Lemma insert_keyed_perm kx l : insert_keyed kx l ≡ₚ kx :: l.
Proof.
  induction l as [|ky l IH]; cbn; [reflexivity|].
  destruct (kx.1 <=? ky.1); [reflexivity|].
  rewrite IH. apply Permutation_swap.
Qed.

Lemma sort_keyed_perm l : sort_keyed l ≡ₚ l.
Proof.
  induction l as [|kx l IH]; cbn; [reflexivity|].
  rewrite insert_keyed_perm, IH. reflexivity.
Qed.

Lemma insert_keyed_sorted kx l :
  StronglySorted by_key l -> StronglySorted by_key (insert_keyed kx l).
Proof.
  induction 1 as [|ky l Hl IH Hky]; cbn.
  - repeat constructor.
  - destruct (Nat.leb_spec kx.1 ky.1) as [Hle|Hgt].
    + constructor; [constructor; assumption|].
      constructor; [exact Hle|].
      eapply Forall_impl; [exact Hky|]. unfold by_key. cbn. lia.
    + constructor; [exact IH|].
      rewrite insert_keyed_perm. constructor; [|exact Hky].
      unfold by_key. lia.
Qed.

Lemma sort_keyed_sorted l : StronglySorted by_key (sort_keyed l).
Proof.
  induction l as [|kx l IH]; cbn; [constructor|].
  apply insert_keyed_sorted, IH.
Qed.

Lemma StronglySorted_lookup (R : relation (nat * A)) l i j a b :
  StronglySorted R l -> i < j -> l !! i = Some a -> l !! j = Some b -> R a b.
Proof.
  intros Hl. revert i j. induction Hl as [|x l _ IH Hx]; intros i j Hij Hi Hj.
  - rewrite lookup_nil in Hi. discriminate.
  - destruct j as [|j]; [lia|]. cbn in Hj. destruct i as [|i]; cbn in Hi.
    + injection Hi as <-. rewrite Forall_forall in Hx. apply Hx.
      apply list_elem_of_lookup. eauto.
    + apply (IH i j); [lia|assumption..].
Qed.

Lemma with_keys_ok (key : A -> result nat) (pos : A -> nat) (s : list A) :
  (forall x, x ∈ s -> key x = Ok (pos x)) ->
  with_keys key s = Ok ((fun x => (pos x, x)) <$> s).
Proof.
  induction s as [|x s IH]; intros Hs; cbn; [reflexivity|].
  rewrite (Hs x) by (left; reflexivity). cbn.
  rewrite IH; [reflexivity|]. intros y Hy. apply Hs. right. exact Hy.
Qed.

End Sorting.

Section FirstOccurrence.
Implicit Types (text : str) (c : char).

Lemma first_at_cons_ne x text c p :
  x <> c -> first_at (x :: text) c p <->
            exists p', p = S p' /\ first_at text c p'.
Proof.
  intros Hne. split.
  - intros [H1 H2]. destruct p as [|p']; cbn in H1; [congruence|].
    exists p'. split; [reflexivity|]. split; [exact H1|].
    intros q Hq. apply (H2 (S q)). lia.
  - intros (p' & -> & H1 & H2). split; [exact H1|].
    intros [|q] Hq; cbn; [congruence|]. apply H2. lia.
Qed.

Lemma index_first_at text c p : index text c = Ok p <-> first_at text c p.
Proof.
  revert p. induction text as [|x text IH]; intros p; cbn.
  - split; [discriminate|]. intros [H _]. destruct p; discriminate H.
  - destruct (decide (x = c)) as [->|Hne].
    + split.
      * intros [= <-]. split; [reflexivity|]. intros q Hq. lia.
      * intros [H1 H2]. destruct p as [|p]; [reflexivity|].
        exfalso. apply (H2 0); [lia|reflexivity].
    + rewrite (first_at_cons_ne _ _ _ _ Hne).
      destruct (index text c) as [i|e]; cbn.
      * split.
        -- intros [= <-]. exists i. split; [reflexivity|]. apply IH.
           reflexivity.
        -- intros (p' & -> & Hp'). apply IH in Hp'. congruence.
      * split; [discriminate|].
        intros (p' & -> & Hp'). apply IH in Hp'. discriminate.
Qed.

Lemma index_elem_of text c : c ∈ text -> index text c = Ok (position text c).
Proof.
  unfold position. induction 1 as [c text|c x text _ IH]; cbn.
  - rewrite decide_True by reflexivity. reflexivity.
  - destruct (decide (x = c)); [reflexivity|].
    destruct (index text c); [reflexivity|discriminate].
Qed.

Lemma first_at_position text c : c ∈ text -> first_at text c (position text c).
Proof. intros Hc. apply index_first_at, index_elem_of, Hc. Qed.

Lemma position_inj text c d :
  c ∈ text -> d ∈ text -> position text c = position text d -> c = d.
Proof.
  intros Hc Hd E. destruct (first_at_position text c Hc) as [H1 _].
  destruct (first_at_position text d Hd) as [H2 _]. congruence.
Qed.

Lemma join_characters (cs : list char) :
  join [] (map (fun c => [c]) cs) = cs.
Proof.
  induction cs as [|c cs IH]; [reflexivity|].
  cbn [map join]. destruct cs as [|d cs]; [reflexivity|].
  cbn [map] in *. rewrite IH. reflexivity.
Qed.

End FirstOccurrence.

Section RemoveDuplicates.
Variable order : list char -> list char.
Hypothesis order_perm : forall l, order l ≡ₚ l.
Implicit Types (text : str) (c : char).

Lemma remove_duplicates_sorted text :
  remove_duplicates order text =
  Ok (snd <$> sort_keyed ((fun c => (position text c, c)) <$> set_ order text)).
Proof.
  unfold remove_duplicates, sorted, list_.
  rewrite (with_keys_ok _ (position text)).
  - cbn. rewrite join_characters. reflexivity.
  - intros c Hc. apply index_elem_of. apply (elem_of_set order order_perm), Hc.
Qed.

Lemma sorted_characters_perm text (s : list char) :
  snd <$> sort_keyed ((fun c => (position text c, c)) <$> s) ≡ₚ s.
Proof.
  rewrite sort_keyed_perm, <- list_fmap_compose.
  rewrite <- (list_fmap_id s) at 2. reflexivity.
Qed.

(** Characters of the text have different keys, so that the sorted sequence
    does not depend on the order in which the set hands them over. *)
Lemma sort_keyed_unique text (s1 s2 : list char) :
  s1 ≡ₚ s2 -> (forall c, c ∈ s1 -> c ∈ text) ->
  sort_keyed ((fun c => (position text c, c)) <$> s1) =
  sort_keyed ((fun c => (position text c, c)) <$> s2).
Proof.
  intros Hperm Hin.
  apply (StronglySorted_unique_strong by_key).
  - intros [p1 c1] [p2 c2] H1 H2 Hle Hge.
    rewrite sort_keyed_perm in H1, H2.
    apply list_elem_of_fmap in H1 as (d1 & [= -> ->] & Hd1).
    apply list_elem_of_fmap in H2 as (d2 & [= -> ->] & Hd2).
    unfold by_key in Hle, Hge. cbn in Hle, Hge.
    rewrite (position_inj text d1 d2); [reflexivity|..].
    + apply Hin, Hd1.
    + apply Hin. rewrite Hperm. exact Hd2.
    + lia.
  - apply sort_keyed_sorted.
  - apply sort_keyed_sorted.
  - rewrite !sort_keyed_perm, Hperm. reflexivity.
Qed.

Lemma remove_duplicates_first_seen text :
  remove_duplicates order text =
  Ok (snd <$> sort_keyed ((fun c => (position text c, c)) <$> foldl add [] text)).
Proof.
  rewrite remove_duplicates_sorted. do 2 f_equal.
  apply sort_keyed_unique.
  - apply order_perm.
  - intros c. apply (elem_of_set order order_perm).
Qed.

(** C5, as the code has it.  Whatever the iteration order of the set,
    [remove_duplicates] returns a string that holds the characters of the
    text, each once, with a character whose first occurrence in the text
    comes earlier standing earlier; and for ["HelloWorld"] that string is
    ["HeloWrd"], with the capital W of the text. *)
Theorem remove_duplicates_first_occurrences text :
  (exists out,
     remove_duplicates order text = Ok out /\
     NoDup out /\
     (forall c, c ∈ out <-> c ∈ text) /\
     (forall i j c d, i < j -> out !! i = Some c -> out !! j = Some d ->
        exists p q, first_at text c p /\ first_at text d q /\ p < q)) /\
  remove_duplicates order (lit "HelloWorld") = Ok (lit "HeloWrd").
Proof.
  split; [|rewrite remove_duplicates_first_seen; reflexivity].
  eexists. split; [apply remove_duplicates_sorted|].
  set (keyed := (fun c => (position text c, c)) <$> set_ order text).
  assert (Hperm : snd <$> sort_keyed keyed ≡ₚ set_ order text)
    by apply sorted_characters_perm.
  assert (Hnodup : NoDup (snd <$> sort_keyed keyed)).
  { rewrite Hperm. apply (NoDup_set order order_perm). }
  assert (Hmem : forall c, c ∈ snd <$> sort_keyed keyed <-> c ∈ text).
  { intros c. rewrite Hperm. apply (elem_of_set order order_perm). }
  split; [exact Hnodup|]. split; [exact Hmem|].
  intros i j c d Hij Hi Hj.
  assert (Hc : c ∈ text) by (apply Hmem, list_elem_of_lookup; eauto).
  assert (Hd : d ∈ text) by (apply Hmem, list_elem_of_lookup; eauto).
  exists (position text c), (position text d).
  split; [apply first_at_position, Hc|].
  split; [apply first_at_position, Hd|].
  assert (Hne : c <> d).
  { intros ->. pose proof (NoDup_lookup _ _ _ _ Hnodup Hi Hj). lia. }
  assert (Hne' : position text c <> position text d).
  { intros E. apply Hne. exact (position_inj text c d Hc Hd E). }
  rewrite list_lookup_fmap in Hi, Hj.
  destruct (sort_keyed keyed !! i) as [[pc c']|] eqn:Ei; [|discriminate].
  destruct (sort_keyed keyed !! j) as [[pd d']|] eqn:Ej; [|discriminate].
  cbn in Hi, Hj. injection Hi as ->. injection Hj as ->.
  pose proof (StronglySorted_lookup by_key _ _ _ _ _
                (sort_keyed_sorted keyed) Hij Ei Ej) as Hle.
  assert (Hkc : (pc, c) ∈ keyed).
  { rewrite <- (sort_keyed_perm keyed). apply list_elem_of_lookup. eauto. }
  assert (Hkd : (pd, d) ∈ keyed).
  { rewrite <- (sort_keyed_perm keyed). apply list_elem_of_lookup. eauto. }
  apply list_elem_of_fmap in Hkc as (? & [= -> <-] & _).
  apply list_elem_of_fmap in Hkd as (? & [= -> <-] & _).
  unfold by_key in Hle. cbn in Hle. lia.
Qed.

End RemoveDuplicates.

Lemma remove_duplicates_first_occurrences_witness :
  exists out, remove_duplicates (@reverse char) (lit "banana") = Ok out /\
              NoDup out.
Proof.
  destruct (remove_duplicates_first_occurrences (@reverse char)
              (fun l => reverse_Permutation l) (lit "banana"))
    as ((out & Hout & Hnodup & _) & _).
  exists out. split; assumption.
Defined.

(** C5, as the specification has it, fails on its example: the W of
    ["HelloWorld"] is a capital and is returned as one, in whatever order
    the set is iterated. *)
Lemma remove_duplicates_keeps_capital :
  ~ (exists order : list char -> list char,
       (forall l, order l ≡ₚ l) /\
       remove_duplicates order (lit "HelloWorld") = Ok (lit "Helowrd")).
Proof.
  intros (order & Hperm & Hrun).
  rewrite (remove_duplicates_first_seen order Hperm) in Hrun.
  vm_compute in Hrun. discriminate.
Qed.

(** ** Password generation *)

Section RandomFacts.
Variable rng : Type.
Variable randbelow : nat -> rng -> nat * rng.
Hypothesis randbelow_lt : forall n g, 0 < n -> (randbelow n g).1 < n.

Lemma choice_ok (seq : str) (g : rng) :
  seq <> [] ->
  exists c g', choice rng randbelow seq g = (Ok c, g') /\ c ∈ seq.
Proof.
  intros Hseq. unfold choice.
  assert (Hlen : 0 < length seq) by (destruct seq; [congruence|cbn; lia]).
  pose proof (randbelow_lt (length seq) g Hlen) as Hlt.
  destruct (randbelow (length seq) g) as [i g']. cbn in Hlt.
  destruct (lookup_lt_is_Some_2 seq i Hlt) as [c Hc].
  rewrite Hc. exists c, g'. split; [reflexivity|].
  apply list_elem_of_lookup. eauto.
Qed.

Lemma choices_ok (characters : str) (n : nat) (g : rng) :
  characters <> [] ->
  exists cs g', choices rng randbelow characters n g = (Ok cs, g') /\
                length cs = n /\ Forall (fun c => c ∈ characters) cs.
Proof.
  intros Hne. revert g. induction n as [|n IH]; intros g; cbn [choices].
  - exists [], g. repeat split. constructor.
  - destruct (choice_ok characters g Hne) as (c & g1 & -> & Hc).
    destruct (IH g1) as (cs & g2 & -> & Hlen & Hcs).
    exists (c :: cs), g2. split; [reflexivity|]. split; [cbn; lia|].
    constructor; assumption.
Qed.

(** C10.  For a length [n >= 0] and any random source, the password has
    exactly [n] characters, each of them a letter, a digit or a punctuation
    character of ASCII; for [n = 0] it is the empty string. *)
Theorem generate_random_password_length (n : Z) (g : rng) :
  (0 <= n)%Z ->
  exists password g',
    generate_random_password rng randbelow n g = (Ok password, g') /\
    length password = Z.to_nat n /\
    Forall (fun c => c ∈ ascii_letters ++ digits ++ punctuation) password /\
    (n = 0%Z -> password = []).
Proof.
  intros Hn. unfold generate_random_password.
  destruct (choices_ok (ascii_letters ++ digits ++ punctuation)
              (Z.to_nat n) g) as (cs & g' & -> & Hlen & Hcs).
  { discriminate. }
  rewrite join_characters. exists cs, g'.
  split; [reflexivity|]. split; [exact Hlen|]. split; [exact Hcs|].
  intros ->. destruct cs; [reflexivity|discriminate].
Qed.

End RandomFacts.

Lemma counter_randbelow_lt (n g : nat) : 0 < n -> (counter_randbelow n g).1 < n.
Proof. intros Hn. cbn. apply Nat.mod_upper_bound. lia. Qed.

Lemma generate_random_password_length_witness :
  exists password g',
    generate_random_password nat counter_randbelow 10 2024
      = (Ok password, g') /\
    length password = 10.
Proof.
  destruct (generate_random_password_length nat counter_randbelow
              counter_randbelow_lt 10 2024 ltac:(lia))
    as (password & g' & Hrun & Hlen & _).
  exists password, g'. split; [exact Hrun|exact Hlen].
Defined.

(** ** Hashing *)

Section HashingFacts.
Variable algorithms : str -> option (list N -> result (list N)).
Hypothesis required_supported :
  forall name, name ∈ required_algorithms ->
    exists h, algorithms name = Some h /\ forall data, returns (h data).

Lemma encode_char_ok (c : char) :
  ~ surrogate c -> returns (encode_char c).
Proof.
  intros Hc. unfold encode_char, surrogate in *.
  destruct (N.ltb_spec c 0x80); [eexists; reflexivity|].
  destruct (N.ltb_spec c 0x800); [eexists; reflexivity|].
  destruct (N.ltb_spec c 0x10000); [|eexists; reflexivity].
  destruct (N.leb_spec 0xD800 c); cbn [andb]; [|eexists; reflexivity].
  destruct (N.leb_spec c 0xDFFF); [lia|eexists; reflexivity].
Qed.

Lemma encode_char_surrogate (c : char) :
  surrogate c -> encode_char c = Raise UnicodeEncodeError.
Proof.
  intros [H1 H2]. unfold encode_char.
  destruct (N.ltb_spec c 0x80); [lia|].
  destruct (N.ltb_spec c 0x800); [lia|].
  destruct (N.ltb_spec c 0x10000); [|lia].
  destruct (N.leb_spec 0xD800 c); [|lia].
  destruct (N.leb_spec c 0xDFFF); [reflexivity|lia].
Qed.

Lemma encode_utf8_ok (text : str) :
  Forall (fun c => ~ surrogate c) text -> returns (encode_utf8 text).
Proof.
  induction 1 as [|c text Hc _ [bs IH]]; [eexists; reflexivity|].
  destruct (encode_char_ok c Hc) as [b Hb].
  cbn [encode_utf8]. rewrite Hb, IH. eexists. reflexivity.
Qed.

Lemma encode_utf8_surrogate (text : str) :
  Exists surrogate text -> encode_utf8 text = Raise UnicodeEncodeError.
Proof.
  induction 1 as [c text Hc|c text _ IH]; cbn [encode_utf8].
  - rewrite (encode_char_surrogate c Hc). reflexivity.
  - rewrite IH. destruct (decide (surrogate c)) as [Hs|Hs].
    + rewrite (encode_char_surrogate c Hs). reflexivity.
    + destruct (encode_char_ok c Hs) as [b ->]. reflexivity.
Qed.

(** The encoding of a code point holds the byte 0 only for [U+0000]. *)
Lemma encode_char_nul (c : char) (b : list N) :
  encode_char c = Ok b -> (0%N ∈ b <-> c = 0%N).
Proof.
  unfold encode_char.
  assert (Hlor : forall a x, a <> 0%N -> N.lor a x <> 0%N).
  { intros a x Ha H. apply N.lor_eq_0_iff in H. tauto. }
  assert (Hbytes : forall l : list N, Forall (fun x => x <> 0%N) l ->
                     c <> 0%N -> (0%N ∈ l <-> c = 0%N)).
  { intros l Hl Hc. split; [|tauto]. intros H0.
    rewrite Forall_forall in Hl. destruct (Hl _ H0). reflexivity. }
  destruct (N.ltb_spec c 0x80).
  { intros [= <-]. rewrite list_elem_of_singleton. split; congruence. }
  destruct (N.ltb_spec c 0x800).
  { intros [= <-]. apply Hbytes; [|lia].
    repeat constructor; apply Hlor; discriminate. }
  destruct (N.ltb_spec c 0x10000).
  { destruct ((0xD800 <=? c)%N && (c <=? 0xDFFF)%N); [discriminate|].
    intros [= <-]. apply Hbytes; [|lia].
    repeat constructor; apply Hlor; discriminate. }
  intros [= <-]. apply Hbytes; [|lia].
  repeat constructor; apply Hlor; discriminate.
Qed.

Lemma encode_utf8_nul (text : str) (bytes : list N) :
  encode_utf8 text = Ok bytes -> (0%N ∈ bytes <-> 0%N ∈ text).
Proof.
  revert bytes. induction text as [|c text IH]; intros bytes.
  { intros [= <-]. reflexivity. }
  cbn [encode_utf8].
  destruct (encode_char c) as [b|e] eqn:Hc; [|discriminate].
  destruct (encode_utf8 text) as [bs|e] eqn:Htext; [|discriminate].
  intros [= <-]. rewrite elem_of_app, elem_of_cons.
  rewrite (encode_char_nul c b Hc), (IH bs eq_refl).
  split; intros [H|H]; auto.
Qed.

(** What [hashlib.new] does with a name. *)
Lemma hashlib_new_c_string (name : str) :
  c_string name ->
  hashlib_new algorithms name =
  match algorithms name with
  | None => Raise ValueError
  | Some hash_object => Ok hash_object
  end.
Proof.
  intros [Hnul Hsur]. unfold hashlib_new.
  destruct (encode_utf8_ok name Hsur) as [bytes Hbytes]. rewrite Hbytes.
  rewrite decide_False; [reflexivity|].
  rewrite (encode_utf8_nul name bytes Hbytes). exact Hnul.
Qed.

Lemma hashlib_new_not_c_string (name : str) :
  ~ c_string name -> hashlib_new algorithms name = Raise TypeError.
Proof.
  intros Hname. unfold hashlib_new.
  destruct (encode_utf8 name) as [bytes|e] eqn:Hbytes; [|reflexivity].
  destruct (decide (0%N ∈ bytes)) as [H0|H0]; [reflexivity|].
  destruct Hname. split.
  - rewrite <- (encode_utf8_nul name bytes Hbytes). exact H0.
  - apply Forall_forall. intros c Hc Hs.
    rewrite encode_utf8_surrogate in Hbytes; [discriminate|].
    apply Exists_exists. eauto.
Qed.

Lemma hex_digit_ok (d : N) : (d < 16)%N -> is_hex_digit (hex_digit d) = true.
Proof.
  intros Hd. unfold is_hex_digit, hex_digit. apply orb_true_iff.
  destruct (N.ltb_spec d 10); [left|right];
    apply andb_true_iff; split; apply N.leb_le; lia.
Qed.

Lemma hexdigest_ok (digest : list N) :
  Forall (fun c => is_hex_digit c = true) (hexdigest digest) /\
  length (hexdigest digest) = 2 * length digest.
Proof.
  unfold hexdigest.
  induction digest as [|b digest [IH1 IH2]]; cbn [flat_map app length].
  - split; [constructor|reflexivity].
  - split; [|lia].
    constructor; [apply hex_digit_ok, N.mod_upper_bound; discriminate|].
    constructor; [apply hex_digit_ok, N.mod_upper_bound; discriminate|].
    exact IH1.
Qed.

Lemma required_c_string (name : str) :
  name ∈ required_algorithms -> c_string name.
Proof.
  unfold required_algorithms.
  rewrite !elem_of_cons, elem_of_nil.
  intros [->|[->|[->|[]]]]; split;
    apply (bool_decide_unpack _); vm_compute; exact I.
Qed.


End HashingFacts.

Lemma sample_hashlib_required (name : str) :
  name ∈ required_algorithms ->
  exists h, sample_hashlib name = Some h /\ forall data, returns (h data).
Proof.
  intros Hname. unfold sample_hashlib. rewrite decide_True by exact Hname.
  exists byte_sum. split; [reflexivity|]. intros data. eexists. reflexivity.
Qed.



(** ** Directory creation *)

Section DirectoryFacts.
Context {FS : Type}.
Variable os_path_exists : FS -> str -> bool.
Variable os_mkdir : str -> FS -> result unit * FS.
(** What is asked of the operating system: a path that [os.mkdir] has made
    exists. *)
Hypothesis mkdir_exists :
  forall p fs fs', os_mkdir p fs = (Ok tt, fs') -> os_path_exists fs' p = true.

(** Unless the path ends in [.], [makedirs] returns only after [os.mkdir]
    has made the path. *)
Lemma makedirs_returns (depth : nat) (name : str) (fs fs' : FS) :
  last_component name <> curdir ->
  makedirs os_path_exists os_mkdir depth name fs = (Ok tt, fs') ->
  os_path_exists fs' name = true.
Proof.
  destruct depth as [|depth]; [discriminate|].
  cbn [makedirs]. unfold last_component.
  destruct (path_split name) as [head tail].
  assert (Hrun : forall h t, t <> curdir ->
    (if bool_decide (h <> []) && bool_decide (t <> []) &&
        negb (os_path_exists fs h)
     then match makedirs os_path_exists os_mkdir depth h fs with
          | (Ok _, fs1) | (Raise FileExistsError, fs1) =>
              if decide (t = curdir) then (Ok tt, fs1) else os_mkdir name fs1
          | (Raise e, fs1) => (Raise e, fs1)
          end
     else os_mkdir name fs) = (Ok tt, fs') ->
    os_path_exists fs' name = true).
  { intros h t Ht.
    destruct (bool_decide (h <> []) && bool_decide (t <> []) &&
              negb (os_path_exists fs h)); [|apply mkdir_exists].
    destruct (makedirs os_path_exists os_mkdir depth h fs) as [[[]|e] fs1].
    - rewrite decide_False by exact Ht. apply mkdir_exists.
    - destruct e; try discriminate.
      rewrite decide_False by exact Ht. apply mkdir_exists. }
  destruct (decide (tail = [])) as [Htail|Htail].
  - destruct (path_split head) as [head' tail']. cbn [snd]. apply Hrun.
  - apply Hrun.
Qed.

(** C7, as the code has it.  On a path that exists the call returns and
    changes nothing.  When a call on a path that does not end in [.] has
    returned, the path exists, and a second call returns and leaves the
    file system as the first left it. *)
Theorem create_directory_idempotent (depth : nat) (directory : str) (fs : FS) :
  (os_path_exists fs directory = true ->
   create_directory os_path_exists os_mkdir depth directory fs = (Ok tt, fs)) /\
  (forall fs',
     last_component directory <> curdir ->
     create_directory os_path_exists os_mkdir depth directory fs
       = (Ok tt, fs') ->
     os_path_exists fs' directory = true /\
     create_directory os_path_exists os_mkdir depth directory fs'
       = (Ok tt, fs')).
Proof.
  assert (Hexists : forall fs0, os_path_exists fs0 directory = true ->
            create_directory os_path_exists os_mkdir depth directory fs0
              = (Ok tt, fs0)).
  { intros fs0 H. unfold create_directory. rewrite H. reflexivity. }
  split; [apply Hexists|].
  intros fs' Hlast Hrun.
  assert (Hafter : os_path_exists fs' directory = true).
  { unfold create_directory in Hrun.
    destruct (os_path_exists fs directory) eqn:Hex; cbn [negb] in Hrun.
    - injection Hrun as <-. exact Hex.
    - exact (makedirs_returns depth directory fs fs' Hlast Hrun). }
  split; [exact Hafter|apply Hexists, Hafter].
Qed.

End DirectoryFacts.

(** The sample operating system does what is asked. *)

Lemma kind_insert_eq (fs : gmap (list str) node) (e : list str) :
  e <> [] -> kind (<[e := Dir]> fs) e = Some Dir.
Proof.
  intros He. destruct e as [|x e]; [congruence|]. cbn.
  apply lookup_insert_eq.
Qed.

Lemma kind_insert_ne (fs : gmap (list str) node) (e e' : list str) :
  e <> e' -> kind (<[e := Dir]> fs) e' = kind fs e'.
Proof.
  intros Hne. destruct e' as [|y e']; [reflexivity|]. cbn.
  apply lookup_insert_ne. exact Hne.
Qed.

Lemma walk_app (fs : gmap (list str) node) (cur : list str)
    (comps comps' : list str) :
  walk fs cur (comps ++ comps')
  = bind (walk fs cur comps) (fun e => walk fs e comps').
Proof.
  revert cur. induction comps as [|c comps IH]; intros cur; [reflexivity|].
  cbn [app walk]. destruct (kind fs cur) as [[|]|]; [apply IH| |]; reflexivity.
Qed.

Lemma walk_insert (fs : gmap (list str) node) (new cur e : list str)
    (comps : list str) :
  kind fs new = None ->
  walk fs cur comps = Ok e -> walk (<[new := Dir]> fs) cur comps = Ok e.
Proof.
  intros Hnew. revert cur. induction comps as [|c comps IH]; intros cur.
  { intros H. exact H. }
  cbn [walk]. destruct (kind fs cur) as [[|]|] eqn:Hcur; try discriminate.
  rewrite kind_insert_ne by congruence. rewrite Hcur. apply IH.
Qed.

Lemma walk_empty_components (fs : gmap (list str) node) (e : list str)
    (k : nat) :
  kind fs e = Some Dir -> walk fs e (replicate k []) = Ok e.
Proof.
  intros He. induction k as [|k IH]; [reflexivity|].
  cbn [replicate walk]. rewrite He. exact IH.
Qed.

Lemma strip_empty_spec (comps : list str) :
  exists k, comps = strip_empty comps ++ replicate k [].
Proof.
  induction comps as [|c comps [k IH]]; [exists 0; reflexivity|].
  cbn [strip_empty]. destruct (strip_empty comps) as [|s stripped].
  - destruct (decide (c = [])) as [->|Hc].
    + exists (S k). cbn. f_equal. exact IH.
    + exists k. cbn. f_equal. exact IH.
  - exists k. cbn. f_equal. exact IH.
Qed.

Lemma unsnoc_None {A} (l : list A) : unsnoc l = None -> l = [].
Proof.
  destruct l as [|x l]; [reflexivity|]. cbn [unsnoc].
  destruct (unsnoc l) as [[init last]|]; discriminate.
Qed.

Lemma unsnoc_Some {A} (l init : list A) (last : A) :
  unsnoc l = Some (init, last) -> l = init ++ [last].
Proof.
  revert init. induction l as [|x l IH]; intros init; [discriminate|].
  cbn [unsnoc]. destruct (unsnoc l) as [[init' last']|] eqn:Hl.
  - intros [= <- <-]. cbn. f_equal. apply IH. reflexivity.
  - intros [= <- <-]. rewrite (unsnoc_None l Hl). reflexivity.
Qed.

Lemma strip_empty_last (comps init : list str) (last : str) :
  unsnoc (strip_empty comps) = Some (init, last) -> last <> [].
Proof.
  revert init. induction comps as [|c comps IH]; intros init; [discriminate|].
  cbn [strip_empty]. destruct (strip_empty comps) as [|s stripped].
  - destruct (decide (c = [])) as [->|Hc]; [discriminate|].
    intros [= <- <-]. exact Hc.
  - change (unsnoc (c :: s :: stripped))
      with (match unsnoc (s :: stripped) with
            | None => Some ([], c)
            | Some (init, last) => Some (c :: init, last)
            end).
    destruct (unsnoc (s :: stripped)) as [[init' last']|] eqn:Hs.
    + intros [= <- <-]. exact (IH init' eq_refl).
    + apply unsnoc_None in Hs. discriminate.
Qed.

Lemma sample_mkdir_exists (p : str) (fs fs' : gmap (list str) node) :
  sample_mkdir p fs = (Ok tt, fs') -> sample_exists fs' p = true.
Proof.
  unfold sample_mkdir, sample_exists.
  destruct (decide (0%N ∈ p)) as [|Hnul]; [discriminate|].
  destruct (decide (p = [])) as [|Hp]; [discriminate|].
  rewrite decide_False by tauto.
  destruct (strip_empty_spec (split os_sep p)) as [k Hk].
  destruct (unsnoc (strip_empty (split os_sep p))) as [[init last]|] eqn:Hu;
    [|discriminate].
  pose proof (strip_empty_last _ _ _ Hu) as Hlast.
  apply unsnoc_Some in Hu. rewrite Hu in Hk. rewrite Hk. clear Hk Hu.
  destruct (walk fs [] init) as [parent|e] eqn:Hwalk; [|discriminate].
  destruct (kind fs parent) as [[|]|] eqn:Hparent; try discriminate.
  destruct (decide (last = curdir \/ last = pardir)) as [|Hdots];
    [discriminate|].
  destruct (decide (is_Some (kind fs (last :: parent)))) as [|Hfree];
    [discriminate|].
  intros [= <-]. apply eq_None_not_Some in Hfree.
  assert (Hne : last :: parent <> parent) by congruence.
  rewrite !walk_app, (walk_insert fs _ _ _ _ Hfree Hwalk).
  cbn [bind walk]. rewrite kind_insert_ne by exact Hne. rewrite Hparent.
  assert (Hstep : step parent last = last :: parent).
  { unfold step. rewrite decide_False by tauto.
    rewrite decide_False by tauto. reflexivity. }
  rewrite Hstep. cbn [bind].
  rewrite walk_empty_components by (apply kind_insert_eq; discriminate).
  rewrite kind_insert_eq by discriminate.
  apply bool_decide_eq_true. eexists. reflexivity.
Qed.

Lemma create_directory_idempotent_witness :
  let first :=
    create_directory sample_exists sample_mkdir 8 (lit "a/b") ∅ in
  sample_exists first.2 (lit "a/b") = true /\
  create_directory sample_exists sample_mkdir 8 (lit "a/b") first.2
    = (Ok tt, first.2).
Proof.
  destruct (create_directory_idempotent sample_exists sample_mkdir
              sample_mkdir_exists 8 (lit "a/b") ∅) as [_ Hsecond].
  apply Hsecond.
  - vm_compute. discriminate.
  - vm_compute. reflexivity.
Defined.

(** C7, as the specification has it, fails.  Below a regular file no
    directory can be made, and each of two calls in a row raises.  And a
    first call can return without having made the path, where the path ends
    in [.] and leads through a missing directory to a regular file; the
    second call then raises. *)
Lemma create_directory_twice_raises :
  let fs : gmap (list str) node := {[ [lit "f"] := File ]} in
  let run directory := create_directory sample_exists sample_mkdir 8 directory in
  ((run (lit "f/x") fs).1 = Raise NotADirectoryError /\
   (run (lit "f/x") (run (lit "f/x") fs).2).1 = Raise NotADirectoryError) /\
  ((run (lit "x/../f/.") fs).1 = Ok tt /\
   (run (lit "x/../f/.") (run (lit "x/../f/.") fs).2).1
     = Raise NotADirectoryError).
Proof. vm_compute. repeat split; reflexivity. Qed.

(** * Further properties of the code *)

(** ** Prime enumeration *)

Section PrimeNumbers.
Local Open Scope Z_scope.

Lemma is_prime_iff_prime (n : Z) : is_prime n = true <-> Z.prime n.
Proof.
  destruct (Z_le_dec n 1) as [H1|H1].
  { unfold is_prime. destruct (Z.leb_spec n 1); [|lia].
    split; [discriminate|]. intros [Hp _]. lia. }
  destruct (Z_le_dec n 3) as [H3|H3].
  { unfold is_prime. destruct (Z.leb_spec n 1); [lia|].
    destruct (Z.leb_spec n 3); [|lia].
    split; [intros _; apply prime_2_3; lia|reflexivity]. }
  rewrite is_prime_trial by lia. apply trial_division. lia.
Qed.

Lemma elem_of_range (start stop x : Z) :
  x ∈ range start stop <-> start <= x < stop.
Proof.
  unfold range. rewrite list_elem_of_In, in_map_iff. split.
  - intros (k & <- & Hk). apply in_seq in Hk. lia.
  - intros Hx. exists (Z.to_nat (x - start)). split; [lia|].
    apply in_seq. lia.
Qed.

Lemma range_increasing (start stop : Z) :
  StronglySorted Z.lt (range start stop).
Proof.
  unfold range. generalize (Z.to_nat (stop - start)) as n.
  generalize 0%nat as k. intros k n. revert k.
  induction n as [|n IH]; intros k; cbn [seq map]; constructor.
  - apply IH.
  - apply Forall_forall. intros x Hx.
    apply list_elem_of_In, in_map_iff in Hx as (j & <- & Hj).
    apply in_seq in Hj. lia.
Qed.

Lemma foldl_append_if {A} (keep : A -> bool) (l acc : list A) :
  foldl (fun kept x => if keep x then kept ++ [x] else kept) acc l
  = acc ++ filter (fun x => keep x = true) l.
Proof.
  revert acc. induction l as [|x l IH]; intros acc; cbn [foldl].
  - rewrite filter_nil, app_nil_r. reflexivity.
  - rewrite IH, filter_cons. destruct (keep x) eqn:E.
    + rewrite decide_True by reflexivity. rewrite <- app_assoc. reflexivity.
    + rewrite decide_False by discriminate. reflexivity.
Qed.

Lemma generate_prime_numbers_filter (limit : Z) :
  generate_prime_numbers limit
  = filter (fun n => is_prime n = true) (range 2 (limit + 1)).
Proof. exact (foldl_append_if is_prime (range 2 (limit + 1)) []). Qed.

Lemma StronglySorted_filter {A} (R : relation A) (P : A -> Prop)
    `{forall x, Decision (P x)} (l : list A) :
  StronglySorted R l -> StronglySorted R (filter P l).
Proof.
  induction 1 as [|x l _ IH Hx]; [constructor|].
  rewrite filter_cons. destruct (decide (P x)); [|exact IH].
  constructor; [exact IH|]. apply Forall_forall. intros y Hy.
  apply list_elem_of_filter in Hy as [_ Hy].
  rewrite Forall_forall in Hx. apply Hx, Hy.
Qed.

(** X1.  [generate_prime_numbers limit] lists exactly the prime numbers up
    to [limit], the limit included, and lists nothing when the limit is
    below 2. *)
Theorem generate_prime_numbers_complete (limit : Z) :
  (forall p, p ∈ generate_prime_numbers limit <-> Z.prime p /\ p <= limit) /\
  (limit < 2 -> generate_prime_numbers limit = []).
Proof.
  split.
  - intros p. rewrite generate_prime_numbers_filter, list_elem_of_filter.
    rewrite is_prime_iff_prime, elem_of_range. split.
    + intros [Hp Hr]. split; [exact Hp|lia].
    + intros [Hp Hl]. split; [exact Hp|]. destruct Hp as [Hp _]. lia.
  - intros Hl. unfold generate_prime_numbers, range.
    replace (Z.to_nat (limit + 1 - 2)) with 0%nat by lia. reflexivity.
Qed.

Lemma generate_prime_numbers_complete_witness :
  generate_prime_numbers 1 = [] /\ 7 ∈ generate_prime_numbers 7.
Proof.
  destruct (generate_prime_numbers_complete 1) as [_ Hempty].
  destruct (generate_prime_numbers_complete 7) as [Hmem _].
  split; [apply Hempty; lia|].
  apply Hmem. split; [|lia]. split; [lia|].
  intros d Hd [e He].
  assert (Hc : d = 2 \/ d = 3 \/ d = 4 \/ d = 5 \/ d = 6) by lia.
  destruct Hc as [->|[->|[->|[->| ->]]]]; lia.
Defined.

(** X2.  The primes are listed in increasing order, so none is listed
    twice. *)
Theorem generate_prime_numbers_increasing (limit : Z) :
  StronglySorted Z.lt (generate_prime_numbers limit) /\
  NoDup (generate_prime_numbers limit).
Proof.
  assert (Hsorted : StronglySorted Z.lt (generate_prime_numbers limit)).
  { rewrite generate_prime_numbers_filter.
    apply StronglySorted_filter, range_increasing. }
  split; [exact Hsorted|].
  induction Hsorted as [|x l _ IH Hx]; constructor; [|exact IH].
  intros Hin. rewrite Forall_forall in Hx. specialize (Hx x Hin). lia.
Qed.

End PrimeNumbers.

(** ** Vowels, palindromes and reversal *)

Section Vowels.
Local Open Scope Z_scope.

Lemma count_vowels_from (text : str) (total : Z) :
  foldl (fun total char =>
           if decide (char ∈ vowels) then total + 1 else total) total text
  = total + Z.of_nat (length (filter (fun char => char ∈ vowels) text)).
Proof.
  revert total. induction text as [|c text IH]; intros total; cbn [foldl].
  - rewrite filter_nil. cbn. lia.
  - rewrite IH, filter_cons. destruct (decide (c ∈ vowels)); cbn [length]; lia.
Qed.

Lemma count_vowels_filter (text : str) :
  count_vowels text
  = Z.of_nat (length (filter (fun char => char ∈ vowels) text)).
Proof. unfold count_vowels. rewrite count_vowels_from. lia. Qed.

(** X3.  The vowels of a concatenation are those of its two parts: the
    count is additive. *)
Theorem count_vowels_app (a b : str) :
  count_vowels (a ++ b) = count_vowels a + count_vowels b.
Proof.
  rewrite !count_vowels_filter, filter_app, length_app. lia.
Qed.

Lemma filter_vowels_none (text : str) :
  (forall c, c ∈ text -> c ∉ vowels) ->
  filter (fun char => char ∈ vowels) text = [].
Proof.
  induction text as [|c text IH]; intros H; [reflexivity|].
  rewrite filter_cons, decide_False by (apply H; left).
  apply IH. intros d Hd. apply H. right. exact Hd.
Qed.

Lemma filter_vowels_all (text : str) :
  (forall c, c ∈ text -> c ∈ vowels) ->
  filter (fun char => char ∈ vowels) text = text.
Proof.
  induction text as [|c text IH]; intros H; [reflexivity|].
  rewrite filter_cons, decide_True by (apply H; left).
  rewrite IH; [reflexivity|]. intros d Hd. apply H. right. exact Hd.
Qed.

(** X4.  The count lies between 0 and the length of the text; it is 0
    exactly when no character of the text is one of [aeiouAEIOU], and it is
    the length exactly when every character is. *)
Theorem count_vowels_bounds (text : str) :
  0 <= count_vowels text <= Z.of_nat (length text) /\
  (count_vowels text = 0 <-> forall c, c ∈ text -> c ∉ vowels) /\
  (count_vowels text = Z.of_nat (length text) <->
   forall c, c ∈ text -> c ∈ vowels).
Proof.
  rewrite count_vowels_filter.
  pose proof (length_filter (fun char => char ∈ vowels) text) as Hle.
  split; [lia|]. split; split.
  - intros H c Hc Hv.
    assert (Hin : c ∈ filter (fun char => char ∈ vowels) text)
      by (apply list_elem_of_filter; split; assumption).
    destruct (filter (fun char => char ∈ vowels) text);
      [inversion Hin|discriminate H].
  - intros H. rewrite filter_vowels_none by exact H. reflexivity.
  - intros H c Hc. destruct (decide (c ∈ vowels)) as [Hv|Hv]; [exact Hv|].
    pose proof (length_filter_lt (fun char => char ∈ vowels) text c Hc Hv).
    lia.
  - intros H. rewrite filter_vowels_all by exact H. reflexivity.
Qed.

(** X5.  Reversing a text does not change its number of vowels. *)
Theorem count_vowels_reverse_string (text : str) :
  count_vowels (reverse_string text) = count_vowels text.
Proof.
  unfold reverse_string. rewrite slice_backwards_reverse.
  rewrite !count_vowels_filter, filter_reverse, length_reverse. reflexivity.
Qed.

End Vowels.

Section Palindromes.
Implicit Types (text : str).

(** X6.  Reversal keeps the length, puts at each position the character of
    the mirrored position, and turns a concatenation into the
    concatenation of the reversed parts in the other order. *)
Theorem reverse_string_mirror text :
  length (reverse_string text) = length text /\
  (forall i, i < length text ->
     reverse_string text !! i = text !! (length text - 1 - i)) /\
  (forall a b : str,
     reverse_string (a ++ b) = reverse_string b ++ reverse_string a).
Proof.
  unfold reverse_string. split; [|split].
  - rewrite slice_backwards_reverse. apply length_reverse.
  - intros i Hi. rewrite slice_backwards_reverse, reverse_lookup by exact Hi.
    f_equal. lia.
  - intros a b. rewrite !slice_backwards_reverse. apply reverse_app.
Qed.

Lemma reverse_string_mirror_witness :
  reverse_string (lit "abc") !! 0 = lit "abc" !! 2.
Proof.
  destruct (reverse_string_mirror (lit "abc")) as (_ & Hmirror & _).
  apply (Hmirror 0). vm_compute. lia.
Defined.

Lemma is_palindrome_reverse text :
  is_palindrome text = true <-> text = reverse text.
Proof.
  unfold is_palindrome. rewrite bool_decide_eq_true, slice_backwards_reverse.
  reflexivity.
Qed.

(** X7.  A text is found to be a palindrome exactly when each of its
    characters equals the character at the mirrored position. *)
Theorem is_palindrome_mirror text :
  is_palindrome text = true <->
  forall i, i < length text -> text !! i = text !! (length text - 1 - i).
Proof.
  rewrite is_palindrome_reverse. split.
  - intros H i Hi. rewrite H at 1. rewrite reverse_lookup by exact Hi.
    f_equal. lia.
  - intros H. apply list_eq. intros i.
    destruct (decide (i < length text)) as [Hi|Hi].
    + rewrite reverse_lookup by exact Hi. rewrite (H i Hi). f_equal. lia.
    + rewrite !lookup_ge_None_2; [reflexivity|rewrite length_reverse; lia|lia].
Qed.

(** X8.  A text followed by its reversal is a palindrome, with or without
    a character in between, and a text is a palindrome exactly when its
    reversal is one. *)
Theorem is_palindrome_built text :
  is_palindrome (text ++ reverse_string text) = true /\
  (forall c, is_palindrome (text ++ [c] ++ reverse_string text) = true) /\
  is_palindrome (reverse_string text) = is_palindrome text.
Proof.
  unfold reverse_string. rewrite slice_backwards_reverse. split; [|split].
  - apply is_palindrome_reverse.
    rewrite reverse_app, reverse_involutive. reflexivity.
  - intros c. apply is_palindrome_reverse.
    rewrite !reverse_app, reverse_involutive, reverse_singleton.
    rewrite <- app_assoc. reflexivity.
  - apply eq_true_iff_eq. rewrite !is_palindrome_reverse, reverse_involutive.
    split; intros H; symmetry; exact H.
Qed.

End Palindromes.

(** ** Conversions between camel case and snake case *)

Section CaseConversion.
Variable unicode_lower : str -> nat -> str.
Variable unicode_cased : char -> bool.
Variable unicode_title : str -> nat -> bool -> str.
Implicit Types (text piece : str) (c : char).

Lemma concat_imap_pointwise {A B} (g : nat -> A -> list B) (h : A -> list B)
    (l : list A) :
  (forall i x, l !! i = Some x -> g i x = h x) ->
  concat (imap g l) = concat (h <$> l).
Proof.
  intros H. rewrite (imap_ext g (fun _ => h) l H). f_equal.
  clear H. induction l as [|x l IH]; [reflexivity|]. cbn. f_equal.
  exact IH.
Qed.

Lemma concat_singletons {A B} (f : A -> B) (l : list A) :
  concat ((fun x => [f x]) <$> l) = f <$> l.
Proof. induction l as [|x l IH]; [reflexivity|]. cbn. rewrite IH. reflexivity. Qed.

(** On ASCII text [lower] works character by character. *)
Lemma lower_ascii text :
  ascii text -> lower unicode_lower text = to_lower <$> text.
Proof.
  intros Hascii. unfold lower.
  rewrite (concat_imap_pointwise _ (fun c => [to_lower c])).
  - apply concat_singletons.
  - intros i c Hi. unfold ascii in Hascii. rewrite Forall_forall in Hascii.
    assert (Hc : (c < 128)%N) by (apply Hascii, list_elem_of_lookup; eauto).
    apply N.ltb_lt in Hc. rewrite Hc. reflexivity.
Qed.

(** After the first character the separator goes before each capital. *)
Lemma re_sub_tail (repl : str) c (rest : str) :
  re_sub repl (c :: rest)
  = c :: concat ((fun c' => (if is_AZ c' then repl else []) ++ [c'])
                   <$> rest).
Proof.
  unfold re_sub. rewrite imap_cons. cbn [matches_at Nat.eqb negb andb app].
  cbn [concat app]. f_equal.
  apply concat_imap_pointwise. intros i c' Hi.
  unfold compose, matches_at. cbn [Nat.eqb negb andb].
  change ((c :: rest) !! S i) with (rest !! i). rewrite Hi. reflexivity.
Qed.

Lemma to_lower_not_AZ c : is_AZ (to_lower c) = false.
Proof.
  unfold to_lower, is_AZ.
  destruct (N.leb_spec 65 c), (N.leb_spec c 90); cbn [andb].
  - apply andb_false_iff. right. apply N.leb_gt. lia.
  - apply andb_false_iff. right. apply N.leb_gt. lia.
  - apply andb_false_iff. left. apply N.leb_gt. lia.
  - apply andb_false_iff. left. apply N.leb_gt. lia.
Qed.

Lemma to_lower_fixed c : is_AZ c = false -> to_lower c = c.
Proof. unfold to_lower. intros ->. reflexivity. Qed.

Lemma underscore_lit : lit "_" = [95%N].
Proof. reflexivity. Qed.

Lemma ascii_re_sub text : ascii text -> ascii (re_sub (lit "_") text).
Proof.
  intros Hascii. destruct text as [|c rest]; [constructor|].
  rewrite re_sub_tail. inversion Hascii as [|? ? Hc Hrest]; subst.
  constructor; [exact Hc|]. rewrite underscore_lit.
  clear Hascii Hc. induction Hrest as [|d rest Hd _ IH]; [constructor|].
  cbn. destruct (is_AZ d); cbn; repeat constructor; try assumption; lia.
Qed.

(** The shape of the conversion on ASCII text. *)
Lemma camel_case_ascii text :
  ascii text ->
  camel_case_to_snake_case unicode_lower text
  = to_lower <$> re_sub [95%N] text.
Proof.
  intros Hascii. unfold camel_case_to_snake_case.
  rewrite lower_ascii by (apply ascii_re_sub, Hascii).
  rewrite underscore_lit. reflexivity.
Qed.

Lemma length_re_sub_tail (rest : str) :
  length (concat ((fun c' => (if is_AZ c' then [95%N] else []) ++ [c'])
                    <$> rest))
  = length rest + length (filter (fun c' => is_AZ c' = true) rest).
Proof.
  induction rest as [|d rest IH]; [reflexivity|].
  cbn [fmap list_fmap concat]. rewrite length_app, IH, filter_cons.
  destruct (is_AZ d) eqn:E.
  - rewrite decide_True by reflexivity. cbn. lia.
  - rewrite decide_False by discriminate. cbn. lia.
Qed.

Lemma re_sub_no_capital text :
  (forall c, c ∈ text -> is_AZ c = false) -> re_sub [95%N] text = text.
Proof.
  intros H. destruct text as [|c rest]; [reflexivity|].
  rewrite re_sub_tail. f_equal.
  assert (Hrest : forall d, d ∈ rest -> is_AZ d = false)
    by (intros d Hd; apply H; right; exact Hd).
  clear H. induction rest as [|d rest IH]; [reflexivity|].
  cbn. rewrite (Hrest d) by left. cbn. f_equal.
  apply IH. intros e He. apply Hrest. right. exact He.
Qed.

(** X9.  On ASCII text the snake-case form holds no capital of [A-Z]; it is
    longer than the text by one character for each capital after the first
    character; a text without capitals is returned as it is; and converting
    a second time changes nothing. *)
Theorem camel_case_to_snake_case_ascii text :
  ascii text ->
  (forall c, c ∈ camel_case_to_snake_case unicode_lower text ->
             is_AZ c = false) /\
  length (camel_case_to_snake_case unicode_lower text)
    = length text + length (filter (fun c => is_AZ c = true) (tail text)) /\
  ((forall c, c ∈ text -> is_AZ c = false) ->
   camel_case_to_snake_case unicode_lower text = text) /\
  camel_case_to_snake_case unicode_lower
    (camel_case_to_snake_case unicode_lower text)
  = camel_case_to_snake_case unicode_lower text.
Proof.
  intros Hascii.
  assert (Hlow : forall c, c ∈ camel_case_to_snake_case unicode_lower text ->
                           is_AZ c = false).
  { intros c. rewrite camel_case_ascii by exact Hascii.
    intros Hc. apply list_elem_of_fmap in Hc as (d & -> & _).
    apply to_lower_not_AZ. }
  assert (Hfixed : forall t, ascii t -> (forall c, c ∈ t -> is_AZ c = false) ->
                             camel_case_to_snake_case unicode_lower t = t).
  { intros t Ht H. rewrite camel_case_ascii by exact Ht.
    rewrite re_sub_no_capital by exact H.
    rewrite <- (list_fmap_id t) at 2. apply list_fmap_ext.
    intros i c Hc. apply to_lower_fixed, H, list_elem_of_lookup. eauto. }
  split; [exact Hlow|]. split; [|split].
  - rewrite camel_case_ascii by exact Hascii. rewrite length_fmap.
    destruct text as [|c rest]; [reflexivity|].
    rewrite re_sub_tail. cbn [length tail].
    rewrite length_re_sub_tail. lia.
  - apply Hfixed, Hascii.
  - apply Hfixed; [|exact Hlow].
    rewrite camel_case_ascii by exact Hascii.
    pose proof (ascii_re_sub text Hascii) as Hsub.
    rewrite underscore_lit in Hsub. unfold ascii in *.
    rewrite Forall_fmap. eapply Forall_impl; [exact Hsub|].
    intros c Hc. unfold to_lower. cbn.
    destruct (is_AZ c) eqn:E; [|exact Hc].
    unfold is_AZ in E. apply andb_true_iff in E as [_ E].
    apply N.leb_le in E. lia.
Qed.

(** *** Splitting and joining *)

Lemma split_cons (sep : char) text :
  exists piece pieces, split sep text = piece :: pieces.
Proof.
  induction text as [|c text (piece & pieces & IH)]; cbn [split].
  - eauto.
  - destruct (decide (c = sep)); [eauto|]. rewrite IH. eauto.
Qed.

Lemma split_no_sep (sep : char) text : sep ∉ text -> split sep text = [text].
Proof.
  induction text as [|c text IH]; intros Hsep; [reflexivity|].
  cbn [split]. rewrite decide_False by (intros ->; apply Hsep; left).
  rewrite IH; [reflexivity|]. intros H. apply Hsep. right. exact H.
Qed.

Lemma split_pieces (sep : char) text :
  Forall (fun piece => sep ∉ piece) (split sep text).
Proof.
  induction text as [|c text IH]; cbn [split].
  - repeat constructor. apply not_elem_of_nil.
  - destruct (decide (c = sep)) as [->|Hne].
    + constructor; [apply not_elem_of_nil|exact IH].
    + destruct (split sep text) as [|piece pieces].
      * repeat constructor. intros H.
        apply elem_of_cons in H as [H|H]; [congruence|inversion H].
      * inversion IH as [|? ? Hpiece Hpieces]; subst.
        constructor; [|exact Hpieces]. intros H.
        apply elem_of_cons in H as [H|H]; [congruence|contradiction].
Qed.

(** The pieces together are as long as the text without its separators. *)
Lemma length_split (sep : char) text :
  length (concat (split sep text)) + length (filter (fun c => c = sep) text)
  = length text.
Proof.
  induction text as [|c text IH]; [reflexivity|].
  cbn [split]. rewrite filter_cons.
  destruct (decide (c = sep)) as [->|Hne]; cbn [concat app length].
  - lia.
  - destruct (split sep text) as [|piece pieces]; cbn in *; lia.
Qed.

Lemma split_app_sep (sep : char) (piece rest : str) :
  sep ∉ piece -> split sep (piece ++ sep :: rest) = piece :: split sep rest.
Proof.
  induction piece as [|c piece IH]; intros Hsep.
  - cbn [app split]. rewrite decide_True by reflexivity. reflexivity.
  - cbn [app split]. rewrite decide_False by (intros ->; apply Hsep; left).
    rewrite IH; [reflexivity|]. intros H. apply Hsep. right. exact H.
Qed.

Lemma join_empty (parts : list str) : join [] parts = concat parts.
Proof.
  induction parts as [|p parts IH]; [reflexivity|].
  cbn [join concat]. destruct parts as [|q parts].
  - cbn. rewrite app_nil_r. reflexivity.
  - rewrite IH. reflexivity.
Qed.

Lemma join_sep (sep : char) (piece : str) (pieces : list str) :
  join [sep] (piece :: pieces)
  = piece ++ concat ((fun p => sep :: p) <$> pieces).
Proof.
  revert piece. induction pieces as [|q pieces IH]; intros piece.
  - cbn. rewrite app_nil_r. reflexivity.
  - change (join [sep] (piece :: q :: pieces))
      with (piece ++ [sep] ++ join [sep] (q :: pieces)).
    rewrite IH. reflexivity.
Qed.

Lemma split_join (sep : char) (piece : str) (pieces : list str) :
  sep ∉ piece -> Forall (fun p => sep ∉ p) pieces ->
  split sep (join [sep] (piece :: pieces)) = piece :: pieces.
Proof.
  intros Hpiece Hpieces. revert piece Hpiece.
  induction Hpieces as [|q pieces Hq _ IH]; intros piece Hpiece.
  - cbn [join]. apply split_no_sep, Hpiece.
  - rewrite join_sep.
    change (concat ((fun p => sep :: p) <$> q :: pieces))
      with (sep :: (q ++ concat ((fun p => sep :: p) <$> pieces))).
    rewrite split_app_sep by exact Hpiece. f_equal.
    rewrite <- join_sep. apply IH, Hq.
Qed.

(** *** Title case on ASCII text *)

Lemma to_lower_ne_underscore c : c <> 95%N -> to_lower c <> 95%N.
Proof.
  unfold to_lower, is_AZ. intros Hc.
  destruct (N.leb_spec 65 c), (N.leb_spec c 90); cbn [andb]; lia.
Qed.

Lemma to_upper_ne_underscore c : c <> 95%N -> to_upper c <> 95%N.
Proof.
  unfold to_upper, is_az. intros Hc.
  destruct (N.leb_spec 97 c), (N.leb_spec c 122); cbn [andb]; lia.
Qed.

Lemma title_walk_ascii (ut : nat -> bool -> str) (pos : nat) (cased : bool)
    (rest : str) :
  ascii rest ->
  length (title_walk unicode_cased ut pos cased rest) = length rest /\
  (95%N ∉ rest -> 95%N ∉ title_walk unicode_cased ut pos cased rest).
Proof.
  intros Hascii. revert pos cased.
  induction Hascii as [|c rest Hc _ IH]; intros pos cased.
  - split; [reflexivity|]. intros _. apply not_elem_of_nil.
  - cbn [title_walk]. apply N.ltb_lt in Hc. rewrite Hc.
    destruct (IH (S pos) (is_AZ c || is_az c)) as [IHlen IHsep].
    split; [cbn; rewrite IHlen; reflexivity|].
    intros Hsep. cbn [app]. intros H.
    apply elem_of_cons in H as [H|H].
    + assert (Hne : c <> 95%N) by (intros ->; apply Hsep; left).
      destruct cased; symmetry in H; revert H.
      * apply (to_lower_ne_underscore c Hne).
      * apply (to_upper_ne_underscore c Hne).
    + revert H. apply IHsep. intros H. apply Hsep. right. exact H.
Qed.

Lemma is_az_ascii c : is_az c = true -> (c <? 128)%N = true /\ is_AZ c = false.
Proof.
  unfold is_az, is_AZ. intros H. apply andb_true_iff in H as [H1 H2].
  apply N.leb_le in H1, H2. split; [apply N.ltb_lt; lia|].
  apply andb_false_iff. right. apply N.leb_gt. lia.
Qed.

Lemma title_walk_lowercase (ut : nat -> bool -> str) (pos : nat) (rest : str) :
  lowercase rest -> title_walk unicode_cased ut pos true rest = rest.
Proof.
  intros Hlow. revert pos. induction Hlow as [|c rest Hc _ IH]; intros pos.
  - reflexivity.
  - cbn [title_walk]. destruct (is_az_ascii c Hc) as [-> ->].
    rewrite Hc. cbn [orb app]. rewrite IH. reflexivity.
Qed.

(** A word in lower case is given a capital. *)
Lemma title_lowercase c (rest : str) :
  is_az c = true -> lowercase rest ->
  title unicode_cased unicode_title (c :: rest) = (c - 32)%N :: rest.
Proof.
  intros Hc Hrest. unfold title. cbn [title_walk].
  destruct (is_az_ascii c Hc) as [-> ->]. rewrite Hc. cbn [orb app].
  rewrite title_walk_lowercase by exact Hrest. reflexivity.
Qed.

Lemma split_Forall (P : char -> Prop) (sep : char) text :
  Forall P text -> Forall (Forall P) (split sep text).
Proof.
  induction 1 as [|c text Hc _ IH]; cbn [split].
  - repeat constructor.
  - destruct (decide (c = sep)).
    + constructor; [constructor|exact IH].
    + destruct (split sep text) as [|piece pieces].
      * repeat constructor. exact Hc.
      * inversion IH; subst. constructor; [constructor|]; assumption.
Qed.

Lemma snake_case_to_camel_case_pieces text :
  exists first others,
    split 95%N text = first :: others /\
    snake_case_to_camel_case unicode_cased unicode_title text
    = Ok (first ++ concat (title unicode_cased unicode_title <$> others)).
Proof.
  destruct (split_cons 95%N text) as (first & others & Hsplit).
  exists first, others. split; [exact Hsplit|].
  unfold snake_case_to_camel_case. rewrite Hsplit, join_empty. reflexivity.
Qed.

(** X10.  [snake_case_to_camel_case] always returns: the list of parts is
    never empty, so that [parts[0]] is there.  What stands before the first
    underscore is kept as it is, and a text without underscore is returned
    unchanged. *)
Theorem snake_case_to_camel_case_returns text :
  exists out,
    snake_case_to_camel_case unicode_cased unicode_title text = Ok out /\
    (forall first rest,
       text = first ++ 95%N :: rest -> 95%N ∉ first ->
       exists out', out = first ++ out') /\
    (95%N ∉ text -> out = text).
Proof.
  destruct (snake_case_to_camel_case_pieces text)
    as (first & others & Hsplit & ->).
  eexists. split; [reflexivity|]. split.
  - intros first' rest -> Hfirst'.
    rewrite split_app_sep in Hsplit by exact Hfirst'.
    injection Hsplit as <- _. eauto.
  - intros Hsep. rewrite split_no_sep in Hsplit by exact Hsep.
    injection Hsplit as <- <-. cbn. apply app_nil_r.
Qed.


Lemma title_pieces_ascii (pieces : list str) :
  Forall ascii pieces -> Forall (fun p => 95%N ∉ p) pieces ->
  length (concat (title unicode_cased unicode_title <$> pieces))
    = length (concat pieces) /\
  95%N ∉ concat (title unicode_cased unicode_title <$> pieces).
Proof.
  induction 1 as [|p pieces Hp _ IH]; intros Hsep.
  - split; [reflexivity|apply not_elem_of_nil].
  - inversion Hsep as [|? ? Hp' Hpieces]; subst.
    destruct (IH Hpieces) as [IHlen IHsep].
    destruct (title_walk_ascii (unicode_title p) 0 false p Hp) as [Hlen Hno].
    cbn [fmap list_fmap concat]. fold (title unicode_cased unicode_title p).
    split.
    + rewrite !length_app. unfold title. rewrite Hlen.
      f_equal. exact IHlen.
    + intros H. apply elem_of_app in H as [H|H].
      * revert H. apply Hno, Hp'.
      * revert H. exact IHsep.
Qed.

(** X11.  On ASCII text the camel-case form holds no underscore, and it is
    shorter than the text by the number of underscores of the text: the
    underscores are dropped and nothing else is added or dropped. *)
Theorem snake_case_to_camel_case_ascii text :
  ascii text ->
  exists out,
    snake_case_to_camel_case unicode_cased unicode_title text = Ok out /\
    (95%N ∉ out) /\
    length out + length (filter (fun c => c = 95%N) text) = length text.
Proof.
  intros Hascii.
  destruct (snake_case_to_camel_case_pieces text)
    as (first & others & Hsplit & ->).
  eexists. split; [reflexivity|].
  pose proof (split_pieces 95%N text) as Hsep.
  pose proof (split_Forall _ 95%N text Hascii) as Hasc.
  pose proof (length_split 95%N text) as Hlen.
  rewrite Hsplit in Hsep, Hasc, Hlen.
  inversion Hsep as [|? ? Hfirst Hothers]; subst.
  inversion Hasc as [|? ? _ Haothers]; subst.
  destruct (title_pieces_ascii others Haothers Hothers) as [Htl Hts].
  split.
  - intros H. apply elem_of_app in H as [H|H]; [contradiction|].
    revert H. exact Hts.
  - cbn [concat] in Hlen. rewrite length_app in *. lia.
Qed.

Lemma to_lower_snake_tail c (rest : str) :
  to_lower <$> re_sub [95%N] (c :: rest) = to_lower c :: snake_tail rest.
Proof.
  rewrite re_sub_tail. cbn [fmap list_fmap]. f_equal. unfold snake_tail.
  induction rest as [|d rest IH]; [reflexivity|].
  cbn [fmap list_fmap concat]. rewrite fmap_app. f_equal; [|exact IH].
  unfold to_lower at 1. destruct (is_AZ d) eqn:E; cbn.
  - unfold to_lower. rewrite E. reflexivity.
  - unfold to_lower. rewrite E. reflexivity.
Qed.

(** The pieces of a snake-case form give the text back when all but the
    first are given their capital again. *)
Lemma split_snake_tail (rest : str) :
  letters rest ->
  exists piece pieces,
    split 95%N (snake_tail rest) = piece :: pieces /\
    lowercase piece /\
    piece ++ concat (title unicode_cased unicode_title <$> pieces) = rest.
Proof.
  induction 1 as [|d rest Hd _ (piece & pieces & Hsplit & Hlow & Hback)].
  - exists [], []. repeat split. constructor.
  - unfold snake_tail. cbn [fmap list_fmap concat]. fold (snake_tail rest).
    destruct (is_AZ d) eqn:E.
    + assert (Hd32 : is_az (d + 32) = true).
      { unfold is_AZ in E. apply andb_true_iff in E as [E1 E2].
        apply N.leb_le in E1, E2. unfold is_az.
        apply andb_true_iff. split; apply N.leb_le; lia. }
      exists [], (((d + 32)%N :: piece) :: pieces).
      cbn [app split]. rewrite decide_True by reflexivity.
      rewrite decide_False.
      2:{ unfold is_AZ in E. apply andb_true_iff in E as [E1 _].
          apply N.leb_le in E1. lia. }
      rewrite Hsplit. split; [reflexivity|]. split; [constructor|].
      cbn [fmap list_fmap concat app].
      rewrite (title_lowercase _ _ Hd32 Hlow).
      cbn [app]. rewrite Hback. f_equal. lia.
    + destruct Hd as [Hd|Hd]; [congruence|].
      exists (d :: piece), pieces.
      cbn [app split]. rewrite decide_False.
      2:{ unfold is_az in Hd. apply andb_true_iff in Hd as [E1 _].
          apply N.leb_le in E1. lia. }
      rewrite Hsplit. split; [reflexivity|].
      split; [constructor; assumption|].
      cbn [app]. rewrite Hback. reflexivity.
Qed.

Lemma letters_ascii text : letters text -> ascii text.
Proof.
  intros Hletters. eapply Forall_impl; [exact Hletters|]. cbn.
  intros c [H|H].
  - unfold is_AZ in H. apply andb_true_iff in H as [_ H].
    apply N.leb_le in H. lia.
  - unfold is_az in H. apply andb_true_iff in H as [_ H].
    apply N.leb_le in H. lia.
Qed.

(** X12.  From camel case to snake case and back.  A text of ASCII letters
    that does not begin with a capital is given back by
    [snake_case_to_camel_case] from its snake-case form. *)
Theorem camel_snake_camel text :
  letters text ->
  (forall c, head text = Some c -> is_AZ c = false) ->
  snake_case_to_camel_case unicode_cased unicode_title
    (camel_case_to_snake_case unicode_lower text)
  = Ok text.
Proof.
  intros Hletters Hhead.
  rewrite camel_case_ascii by (apply letters_ascii, Hletters).
  destruct text as [|c rest]; [reflexivity|].
  rewrite to_lower_snake_tail.
  rewrite to_lower_fixed by (apply Hhead; reflexivity).
  inversion Hletters as [|? ? Hc Hrest]; subst.
  destruct Hc as [Hc|Hc]; [rewrite (Hhead c eq_refl) in Hc; discriminate|].
  destruct (split_snake_tail rest Hrest)
    as (piece & pieces & Hsplit & _ & Hback).
  unfold snake_case_to_camel_case. cbn [split]. rewrite decide_False.
  2:{ unfold is_az in Hc. apply andb_true_iff in Hc as [E1 _].
      apply N.leb_le in E1. lia. }
  rewrite Hsplit, join_empty. cbn [app].
  change (map ?f pieces) with (f <$> pieces). rewrite Hback. reflexivity.
Qed.

Lemma lowercase_no_underscore (piece : str) : lowercase piece -> 95%N ∉ piece.
Proof.
  intros Hlow H. unfold lowercase in Hlow. rewrite Forall_forall in Hlow.
  specialize (Hlow _ H). discriminate.
Qed.

Lemma snake_tail_app (a b : str) :
  snake_tail (a ++ b) = snake_tail a ++ snake_tail b.
Proof. unfold snake_tail. rewrite fmap_app, concat_app. reflexivity. Qed.

Lemma snake_tail_lowercase (piece : str) :
  lowercase piece -> snake_tail piece = piece.
Proof.
  induction 1 as [|c piece Hc _ IH]; [reflexivity|].
  unfold snake_tail in *. cbn [fmap list_fmap concat].
  destruct (is_az_ascii c Hc) as [_ ->]. rewrite IH. reflexivity.
Qed.

(** The capitals that [title] gives to words in lower case are what the
    conversion to snake case turns back into underscores. *)
Lemma snake_tail_titles (pieces : list str) :
  Forall (fun p => p <> [] /\ lowercase p) pieces ->
  ascii (concat (title unicode_cased unicode_title <$> pieces)) /\
  snake_tail (concat (title unicode_cased unicode_title <$> pieces))
  = concat ((fun p => 95%N :: p) <$> pieces).
Proof.
  induction 1 as [|p pieces [Hne Hlow] _ [IHa IHs]].
  - split; [constructor|reflexivity].
  - destruct p as [|h tl]; [congruence|].
    inversion Hlow as [|? ? Hh Htl]; subst.
    cbn [fmap list_fmap concat].
    rewrite (title_lowercase h tl Hh Htl).
    assert (Hrange : (97 <= h <= 122)%N).
    { unfold is_az in Hh. apply andb_true_iff in Hh as [H1 H2].
      apply N.leb_le in H1, H2. lia. }
    split.
    + cbn [app]. constructor; [lia|]. apply Forall_app. split; [|exact IHa].
      eapply Forall_impl; [exact Htl|]. cbn. intros c Hc.
      destruct (is_az_ascii c Hc) as [Hc' _]. apply N.ltb_lt, Hc'.
    + rewrite snake_tail_app, IHs.
      unfold snake_tail at 1. cbn [fmap list_fmap concat].
      fold (snake_tail tl).
      assert (Hcap : is_AZ (h - 32) = true).
      { unfold is_AZ. apply andb_true_iff. split; apply N.leb_le; lia. }
      rewrite Hcap, (snake_tail_lowercase tl Htl).
      cbn [app]. do 2 f_equal. lia.
Qed.

(** X13.  From snake case to camel case and back.  Words of lower-case
    ASCII letters, none of them empty, joined by single underscores, come
    back from their camel-case form when it is converted to snake case. *)
Theorem snake_camel_snake (first : str) (others : list str) :
  first <> [] -> lowercase first ->
  Forall (fun p => p <> [] /\ lowercase p) others ->
  exists out,
    snake_case_to_camel_case unicode_cased unicode_title
      (join [95%N] (first :: others)) = Ok out /\
    camel_case_to_snake_case unicode_lower out = join [95%N] (first :: others).
Proof.
  intros Hne Hfirst Hothers.
  assert (Hsplit : split 95%N (join [95%N] (first :: others))
                   = first :: others).
  { apply split_join; [apply lowercase_no_underscore, Hfirst|].
    eapply Forall_impl; [exact Hothers|]. cbn.
    intros p [_ Hp]. apply lowercase_no_underscore, Hp. }
  destruct (snake_tail_titles others Hothers) as [Hascii Htail].
  eexists. split.
  { unfold snake_case_to_camel_case. rewrite Hsplit, join_empty.
    reflexivity. }
  change (map ?f others) with (f <$> others).
  destruct first as [|c rest]; [congruence|].
  inversion Hfirst as [|? ? Hc Hrest]; subst.
  destruct (is_az_ascii c Hc) as [Hc128 HcAZ].
  rewrite camel_case_ascii.
  - cbn [app]. rewrite to_lower_snake_tail, snake_tail_app, Htail.
    rewrite (snake_tail_lowercase rest Hrest), to_lower_fixed by exact HcAZ.
    rewrite join_sep. reflexivity.
  - cbn [app]. constructor; [apply N.ltb_lt, Hc128|].
    apply Forall_app. split; [|exact Hascii].
    eapply Forall_impl; [exact Hrest|]. cbn. intros d Hd.
    destruct (is_az_ascii d Hd) as [Hd' _]. apply N.ltb_lt, Hd'.
Qed.

End CaseConversion.

Lemma camel_case_to_snake_case_ascii_witness :
  length (camel_case_to_snake_case (fun _ _ => []) (lit "parseHTTPReply"))
  = 14 + 5.
Proof.
  destruct (camel_case_to_snake_case_ascii (fun _ _ => [])
              (lit "parseHTTPReply")) as (_ & Hlen & _).
  - apply (bool_decide_unpack _). vm_compute. exact I.
  - exact Hlen.
Defined.
Lemma snake_case_to_camel_case_returns_witness :
  snake_case_to_camel_case (fun _ => false) (fun _ _ _ => []) (lit "plain")
  = Ok (lit "plain").
Proof.
  destruct (snake_case_to_camel_case_returns (fun _ => false) (fun _ _ _ => []) (lit "plain"))
    as (out & -> & _ & Hsame).
  f_equal. apply Hsame. apply (bool_decide_unpack _). vm_compute. exact I.
Defined.

Lemma snake_case_to_camel_case_ascii_witness :
  exists out,
    snake_case_to_camel_case (fun _ => false) (fun _ _ _ => [])
      (lit "max_retry_count") = Ok out /\
    length out = 13.
Proof.
  destruct (snake_case_to_camel_case_ascii (fun _ => false)
              (fun _ _ _ => []) (lit "max_retry_count"))
    as (out & Hrun & _ & Hlen).
  - apply (bool_decide_unpack _). vm_compute. exact I.
  - exists out. split; [exact Hrun|].
    change (length out + 2 = 15) in Hlen. lia.
Defined.

Lemma camel_snake_camel_witness :
  snake_case_to_camel_case (fun _ => false) (fun _ _ _ => [])
    (camel_case_to_snake_case (fun _ _ => []) (lit "parseHttpReply"))
  = Ok (lit "parseHttpReply").
Proof.
  apply camel_snake_camel.
  - apply (bool_decide_unpack _). vm_compute. exact I.
  - intros c [= <-]. reflexivity.
Defined.

Lemma snake_camel_snake_witness :
  exists out,
    snake_case_to_camel_case (fun _ => false) (fun _ _ _ => [])
      (lit "max_retry_count") = Ok out /\
    camel_case_to_snake_case (fun _ _ => []) out = lit "max_retry_count".
Proof.
  apply (snake_camel_snake (fun _ _ => []) (fun _ => false)
           (fun _ _ _ => []) (lit "max") [lit "retry"; lit "count"]).
  - discriminate.
  - apply (bool_decide_unpack _). vm_compute. exact I.
  - repeat constructor; try discriminate;
      apply (bool_decide_unpack _); vm_compute; exact I.
Defined.

(** ** Duplicate removal, applied again *)

Section RemoveDuplicatesAgain.
Variable order : list char -> list char.
Hypothesis order_perm : forall l, order l ≡ₚ l.
Implicit Types (text : str) (c : char).

Lemma foldl_add_NoDup {A} `{EqDecision A} (l acc : list A) :
  NoDup (acc ++ l) -> foldl add acc l = acc ++ l.
Proof.
  revert acc. induction l as [|x l IH]; intros acc Hnd; cbn [foldl].
  - rewrite app_nil_r. reflexivity.
  - assert (Hx : x ∉ acc).
    { apply NoDup_app in Hnd as (_ & Hdisj & _). intros H.
      apply (Hdisj x H). left. }
    unfold add at 2. rewrite decide_False by exact Hx.
    rewrite IH; rewrite <- app_assoc; [reflexivity|exact Hnd].
Qed.

Lemma length_foldl_add {A} `{EqDecision A} (l acc : list A) :
  length (foldl add acc l) <= length acc + length l.
Proof.
  revert acc. induction l as [|x l IH]; intros acc; cbn [foldl length].
  - lia.
  - etransitivity; [apply IH|]. unfold add.
    destruct (decide (x ∈ acc)); [lia|]. rewrite length_app. cbn. lia.
Qed.

Lemma sort_keyed_sorted_id {A} (l : list (nat * A)) :
  StronglySorted by_key l -> sort_keyed l = l.
Proof.
  induction 1 as [|kx l _ IH Hkx]; [reflexivity|].
  cbn [sort_keyed foldr]. fold (sort_keyed l). rewrite IH.
  destruct l as [|ky l]; [reflexivity|]. cbn [insert_keyed].
  inversion Hkx as [|? ? Hle _]; subst. unfold by_key in Hle.
  apply Nat.leb_le in Hle. rewrite Hle. reflexivity.
Qed.

Lemma StronglySorted_from_lookup {A} (R : relation A) (l : list A) :
  (forall i j a b, i < j -> l !! i = Some a -> l !! j = Some b -> R a b) ->
  StronglySorted R l.
Proof.
  induction l as [|x l IH]; intros H; constructor.
  - apply IH. intros i j a b Hij Hi Hj. apply (H (S i) (S j)); [lia|assumption..].
  - apply Forall_forall. intros y Hy.
    apply list_elem_of_lookup in Hy as [j Hj].
    apply (H 0 (S j)); [lia|reflexivity|exact Hj].
Qed.

Lemma position_lookup text i c :
  NoDup text -> text !! i = Some c -> position text c = i.
Proof.
  intros Hnd Hi.
  assert (Hfirst : first_at text c i).
  { split; [exact Hi|]. intros q Hq Hq'.
    pose proof (NoDup_lookup _ _ _ _ Hnd Hi Hq'). lia. }
  apply index_first_at in Hfirst. unfold position. rewrite Hfirst.
  reflexivity.
Qed.

Lemma remove_duplicates_NoDup text :
  NoDup text -> remove_duplicates order text = Ok text.
Proof.
  intros Hnd. rewrite (remove_duplicates_first_seen order order_perm).
  rewrite (foldl_add_NoDup text []) by exact Hnd. cbn [app].
  rewrite sort_keyed_sorted_id.
  - rewrite <- list_fmap_compose. f_equal.
    rewrite <- (list_fmap_id text) at 2. reflexivity.
  - apply StronglySorted_from_lookup. intros i j [pa a] [pb b] Hij Hi Hj.
    rewrite list_lookup_fmap in Hi, Hj.
    destruct (text !! i) as [a'|] eqn:Ei; [|discriminate].
    destruct (text !! j) as [b'|] eqn:Ej; [|discriminate].
    cbn in Hi, Hj. injection Hi as <- <-. injection Hj as <- <-.
    rewrite (position_lookup text i a' Hnd Ei).
    rewrite (position_lookup text j b' Hnd Ej).
    unfold by_key. cbn. lia.
Qed.

(** X14.  [remove_duplicates] returns its argument exactly when no
    character occurs twice in it; so to remove the duplicates a second time
    changes nothing, and the result is never longer than the text. *)
Theorem remove_duplicates_idempotent text :
  (remove_duplicates order text = Ok text <-> NoDup text) /\
  (forall out,
     remove_duplicates order text = Ok out ->
     remove_duplicates order out = Ok out /\ length out <= length text).
Proof.
  assert (Hout : forall out, remove_duplicates order text = Ok out ->
                   NoDup out /\ length out <= length text).
  { intros out Hrun.
    rewrite (remove_duplicates_sorted order order_perm) in Hrun.
    injection Hrun as <-.
    pose proof (sorted_characters_perm text (set_ order text)) as Hperm.
    rewrite Hperm. split; [apply (NoDup_set order order_perm)|].
    unfold set_. rewrite (order_perm _).
    apply (length_foldl_add text []). }
  split.
  - split; [intros H; apply (Hout text H)|apply remove_duplicates_NoDup].
  - intros out Hrun. destruct (Hout out Hrun) as [Hnd Hlen].
    split; [apply remove_duplicates_NoDup, Hnd|exact Hlen].
Qed.

End RemoveDuplicatesAgain.

Lemma remove_duplicates_idempotent_witness :
  remove_duplicates insertion_order (lit "abc") = Ok (lit "abc").
Proof.
  destruct (remove_duplicates_idempotent insertion_order
              (fun l => Permutation_refl l) (lit "abc")) as [Hfixed _].
  apply Hfixed. apply (bool_decide_unpack _). vm_compute. exact I.
Defined.

(** ** How the list operations combine *)

Section ListAlgebra.
Context {A : Type} `{EqDecision A}.
Variable order : list A -> list A.
Hypothesis order_perm : forall l, order l ≡ₚ l.
Implicit Types (a b c : list A) (x : A).

Lemma elem_of_list_union a b x :
  x ∈ list_union order a b <-> x ∈ a \/ x ∈ b.
Proof.
  unfold list_union, list_.
  rewrite (elem_of_set_or order order_perm), !(elem_of_set order order_perm).
  reflexivity.
Qed.

Lemma elem_of_list_intersection a b x :
  x ∈ list_intersection order a b <-> x ∈ a /\ x ∈ b.
Proof.
  unfold list_intersection, list_.
  rewrite (elem_of_set_and order order_perm), !(elem_of_set order order_perm).
  reflexivity.
Qed.

Lemma elem_of_list_difference a b x :
  x ∈ list_difference order a b <-> x ∈ a /\ x ∉ b.
Proof.
  unfold list_difference, list_.
  rewrite (elem_of_set_sub order order_perm), !(elem_of_set order order_perm).
  reflexivity.
Qed.

Lemma NoDup_list_union a b : NoDup (list_union order a b).
Proof. apply (NoDup_set_or order order_perm), (NoDup_set order order_perm). Qed.

Lemma NoDup_list_intersection a b : NoDup (list_intersection order a b).
Proof. apply (NoDup_set_and order order_perm), (NoDup_set order order_perm). Qed.

Lemma NoDup_list_difference a b : NoDup (list_difference order a b).
Proof. apply (NoDup_set_sub order order_perm), (NoDup_set order order_perm). Qed.

Lemma no_elements (l : list A) : (forall x, x ∉ l) -> l = [].
Proof. destruct l as [|x l]; [reflexivity|]. intros H. destruct (H x). left. Qed.

(** X15.  The empty cases: the difference of a list with itself, the
    intersection with an empty list and the difference of an empty list are
    the empty list, whatever the order in which sets are iterated. *)
Theorem list_operations_empty a b :
  list_difference order a a = [] /\
  list_intersection order a [] = [] /\
  list_intersection order [] b = [] /\
  list_difference order [] b = [] /\
  list_union order [] [] = [].
Proof.
  repeat split; apply no_elements; intros x.
  - rewrite elem_of_list_difference. tauto.
  - rewrite elem_of_list_intersection, elem_of_nil. tauto.
  - rewrite elem_of_list_intersection, elem_of_nil. tauto.
  - rewrite elem_of_list_difference, elem_of_nil. tauto.
  - rewrite elem_of_list_union, elem_of_nil. tauto.
Qed.

Lemma intersection_difference_split a b :
  list_intersection order a b ++ list_difference order a b
  ≡ₚ list_union order a [].
Proof.
  apply NoDup_Permutation.
  - apply NoDup_app. split; [apply NoDup_list_intersection|].
    split; [|apply NoDup_list_difference].
    intros x. rewrite elem_of_list_intersection, elem_of_list_difference.
    tauto.
  - apply NoDup_list_union.
  - intros x. rewrite elem_of_app, elem_of_list_intersection,
      elem_of_list_difference, elem_of_list_union, elem_of_nil.
    destruct (decide (x ∈ b)); tauto.
Qed.

Lemma union_split a b :
  list_union order a b ≡ₚ list_union order a [] ++ list_difference order b a.
Proof.
  apply NoDup_Permutation.
  - apply NoDup_list_union.
  - apply NoDup_app. split; [apply NoDup_list_union|].
    split; [|apply NoDup_list_difference].
    intros x. rewrite elem_of_list_union, elem_of_list_difference,
      elem_of_nil. tauto.
  - intros x. rewrite elem_of_app, !elem_of_list_union,
      elem_of_list_difference, elem_of_nil.
    destruct (decide (x ∈ a)); tauto.
Qed.

Lemma list_intersection_comm a b :
  list_intersection order a b ≡ₚ list_intersection order b a.
Proof.
  apply NoDup_Permutation; [apply NoDup_list_intersection..|].
  intros x. rewrite !elem_of_list_intersection. tauto.
Qed.

(** X16.  Counting.  The intersection and the difference of [a] with [b]
    share no element and together hold the distinct elements of [a], which
    [list_union a []] lists; and the union and the intersection of two
    lists together have as many elements as the two lists have distinct
    elements. *)
Theorem list_operations_count a b :
  (forall x, ~ (x ∈ list_intersection order a b /\
                x ∈ list_difference order a b)) /\
  length (list_intersection order a b) + length (list_difference order a b)
    = length (list_union order a []) /\
  length (list_union order a b) + length (list_intersection order a b)
    = length (list_union order a []) + length (list_union order b []).
Proof.
  split; [|split].
  - intros x. rewrite elem_of_list_intersection, elem_of_list_difference.
    tauto.
  - rewrite <- length_app, intersection_difference_split. reflexivity.
  - rewrite (union_split a b), length_app.
    rewrite <- (intersection_difference_split b a), length_app.
    rewrite (list_intersection_comm a b). lia.
Qed.

(** X17.  Up to the order of the elements the operations obey the laws of
    sets, also when the result of one call is passed to another: the
    intersection is commutative, the union of a list with itself, its
    intersection with itself and its difference with the empty list all
    hold its distinct elements, the union is associative, and to take [b]
    away from the union of [a] and [b] leaves the difference of [a] and
    [b]. *)
Theorem list_operations_laws a b c :
  list_intersection order a b ≡ₚ list_intersection order b a /\
  list_union order a a ≡ₚ list_union order a [] /\
  list_intersection order a a ≡ₚ list_union order a [] /\
  list_difference order a [] ≡ₚ list_union order a [] /\
  list_union order (list_union order a b) c
    ≡ₚ list_union order a (list_union order b c) /\
  list_difference order (list_union order a b) b
    ≡ₚ list_difference order a b.
Proof.
  split; [apply list_intersection_comm|].
  repeat split; apply NoDup_Permutation;
    try apply NoDup_list_union; try apply NoDup_list_intersection;
    try apply NoDup_list_difference; intros x;
    rewrite ?elem_of_list_union, ?elem_of_list_intersection,
      ?elem_of_list_difference, ?elem_of_list_union, ?elem_of_nil; tauto.
Qed.

End ListAlgebra.

Lemma list_operations_empty_witness :
  list_difference insertion_order [3; 1; 3]%Z [3; 1; 3]%Z = [].
Proof.
  apply (list_operations_empty insertion_order
           (fun l => Permutation_refl l) [3; 1; 3]%Z []).
Defined.

Lemma list_operations_count_witness :
  length (list_union insertion_order [1; 2; 2]%Z [2; 3]%Z)
  + length (list_intersection insertion_order [1; 2; 2]%Z [2; 3]%Z)
  = length (list_union insertion_order [1; 2; 2]%Z [])
    + length (list_union insertion_order [2; 3]%Z []).
Proof.
  apply (list_operations_count insertion_order
           (fun l => Permutation_refl l) [1; 2; 2]%Z [2; 3]%Z).
Defined.

Lemma list_operations_laws_witness :
  list_union insertion_order (list_union insertion_order [1]%Z [2]%Z) [3]%Z
  ≡ₚ list_union insertion_order [1]%Z (list_union insertion_order [2]%Z [3]%Z).
Proof.
  apply (list_operations_laws insertion_order
           (fun l => Permutation_refl l) [1]%Z [2]%Z [3]%Z).
Defined.

(** ** What [create_directory] keeps *)

Section DirectoryFrame.
Context {FS : Type}.
Variable os_path_exists : FS -> str -> bool.
Variable os_mkdir : str -> FS -> result unit * FS.
(** A property of the file system that no call of [os.mkdir] undoes,
    whether that call returns or raises. *)
Variable keeps : FS -> Prop.
Hypothesis mkdir_keeps : forall p fs, keeps fs -> keeps (os_mkdir p fs).2.

Lemma makedirs_keeps (depth : nat) (name : str) (fs : FS) :
  keeps fs -> keeps (makedirs os_path_exists os_mkdir depth name fs).2.
Proof.
  revert name fs. induction depth as [|depth IH]; intros name fs Hfs.
  { exact Hfs. }
  cbn [makedirs]. destruct (path_split name) as [head tail].
  destruct (if decide (tail = []) then path_split head else (head, tail))
    as [h t].
  destruct (bool_decide (h <> []) && bool_decide (t <> []) &&
            negb (os_path_exists fs h)); [|apply mkdir_keeps, Hfs].
  pose proof (IH h fs Hfs) as Hhead.
  destruct (makedirs os_path_exists os_mkdir depth h fs) as [[[]|e] fs1];
    cbn [snd] in Hhead.
  - destruct (decide (t = curdir)); [exact Hhead|apply mkdir_keeps, Hhead].
  - destruct e; try exact Hhead.
    destruct (decide (t = curdir)); [exact Hhead|apply mkdir_keeps, Hhead].
Qed.


End DirectoryFrame.

(** On the sample operating system [os.mkdir] leaves every entry as it
    is. *)
Lemma sample_mkdir_keeps (e : list str) (n : node) (p : str)
    (fs : gmap (list str) node) :
  kind fs e = Some n -> kind (sample_mkdir p fs).2 e = Some n.
Proof.
  intros He. unfold sample_mkdir.
  destruct (decide (0%N ∈ p)); [exact He|].
  destruct (decide (p = [])); [exact He|].
  destruct (unsnoc (strip_empty (split os_sep p))) as [[init last]|];
    [|exact He].
  destruct (walk fs [] init) as [parent|]; [|exact He].
  destruct (kind fs parent) as [[|]|]; try exact He.
  destruct (decide (last = curdir \/ last = pardir)); [exact He|].
  destruct (decide (is_Some (kind fs (last :: parent)))) as [|Hfree];
    [exact He|].
  cbn [snd]. rewrite kind_insert_ne; [exact He|].
  intros <-. apply Hfree. rewrite He. eexists. reflexivity.
Qed.


(** ** Passwords drawn one after the other *)

Section RandomSequence.
Variable rng : Type.
Variable randbelow : nat -> rng -> nat * rng.
Hypothesis randbelow_lt : forall n g, 0 < n -> (randbelow n g).1 < n.

(** Drawing [m + n] characters is drawing [m] and then [n] from the state
    that the first draws leave. *)
Lemma choices_add (characters : str) (m n : nat) (g : rng) :
  choices rng randbelow characters (m + n) g =
  match choices rng randbelow characters m g with
  | (Ok cs, g1) =>
      match choices rng randbelow characters n g1 with
      | (Ok cs', g2) => (Ok (cs ++ cs'), g2)
      | (Raise e, g2) => (Raise e, g2)
      end
  | (Raise e, g1) => (Raise e, g1)
  end.
Proof.
  revert g. induction m as [|m IH]; intros g.
  - cbn [Nat.add choices app].
    destruct (choices rng randbelow characters n g) as [[cs'|e] g2];
      reflexivity.
  - cbn [Nat.add choices].
    destruct (choice rng randbelow characters g) as [[c|e] g1];
      [|reflexivity].
    rewrite IH.
    destruct (choices rng randbelow characters m g1) as [[cs|e] g2];
      [|reflexivity].
    destruct (choices rng randbelow characters n g2) as [[cs'|e] g3];
      reflexivity.
Qed.

(** X20.  A length of zero or below gives the empty password, raises
    nothing and leaves the random source untouched.  For lengths [m] and
    [n] that are not negative, the password of length [m + n] is the one of
    length [m] followed by the one of length [n] drawn from the state the
    first leaves, and ends in the same state: the characters are drawn one
    after the other. *)
Theorem generate_random_password_sequence (m n : Z) (g : rng) :
  ((n <= 0)%Z -> generate_random_password rng randbelow n g = (Ok [], g)) /\
  ((0 <= m)%Z -> (0 <= n)%Z ->
   exists first g1 second g2,
     generate_random_password rng randbelow m g = (Ok first, g1) /\
     generate_random_password rng randbelow n g1 = (Ok second, g2) /\
     generate_random_password rng randbelow (m + n) g
       = (Ok (first ++ second), g2)).
Proof.
  split.
  - intros Hn. unfold generate_random_password.
    replace (Z.to_nat n) with 0 by lia. reflexivity.
  - intros Hm Hn. unfold generate_random_password.
    rewrite Z2Nat.inj_add by assumption. rewrite choices_add.
    destruct (choices_ok rng randbelow randbelow_lt
                (ascii_letters ++ digits ++ punctuation) (Z.to_nat m) g)
      as (cs & g1 & Hfirst & _ & _); [discriminate|].
    destruct (choices_ok rng randbelow randbelow_lt
                (ascii_letters ++ digits ++ punctuation) (Z.to_nat n) g1)
      as (cs' & g2 & Hsecond & _ & _); [discriminate|].
    exists cs, g1, cs', g2. rewrite Hfirst, Hsecond, !join_characters.
    repeat split; reflexivity.
Qed.

End RandomSequence.

Lemma generate_random_password_sequence_witness :
  generate_random_password nat counter_randbelow (-3) 2024 = (Ok [], 2024) /\
  exists first g1 second g2,
    generate_random_password nat counter_randbelow 3 2024 = (Ok first, g1) /\
    generate_random_password nat counter_randbelow 4 g1 = (Ok second, g2) /\
    generate_random_password nat counter_randbelow (3 + 4) 2024
      = (Ok (first ++ second), g2).
Proof.
  destruct (generate_random_password_sequence nat counter_randbelow
              counter_randbelow_lt 3 (-3) 2024) as [Hneg _].
  destruct (generate_random_password_sequence nat counter_randbelow
              counter_randbelow_lt 3 4 2024) as [_ Hseq].
  split; [apply Hneg; lia|apply Hseq; lia].
Defined.
